(** * p2plab metadata: the scenario store over a bucket tree

    A shallow embedding of [metadata/scenario.go]: scenario records are
    hand-encoded into the nested buckets of an embedded key/value store
    (bbolt).  The store is a tree of buckets, Go maps are cells of a heap
    (the code prunes the caller's maps in place), and every operation runs
    inside one transaction. *)

From Stdlib Require Import ZArith String DecimalString DecimalZ.
From stdpp Require Import base option list gmap strings sorting.

#[local] Set Warnings "-register-all".
#[local] Open Scope string_scope.
#[local] Open Scope Z_scope.

(** ** Errors and the error monad *)

(** The error kinds the layer can return.  [errors.Wrapf] only adds a
    message, the kind tested by [errdefs.IsNotFound] and friends is the
    cause, so a wrapped error is modelled by its cause. *)
Inductive error : Type :=
  | ErrNotFound            (* errdefs.ErrNotFound *)
  | ErrAlreadyExists       (* errdefs.ErrAlreadyExists *)
  | ErrInvalidArgument     (* errdefs.ErrInvalidArgument *)
  | ErrBucketExists        (* bolt.ErrBucketExists *)
  | ErrBucketNotFound      (* bolt.ErrBucketNotFound *)
  | ErrBucketNameRequired  (* bolt.ErrBucketNameRequired *)
  | ErrKeyRequired         (* bolt.ErrKeyRequired *)
  | ErrKeyTooLarge         (* bolt.ErrKeyTooLarge *)
  | ErrValueTooLarge       (* bolt.ErrValueTooLarge *)
  | ErrIncompatibleValue   (* bolt.ErrIncompatibleValue *)
  | ErrTimeUnmarshal       (* time.Time.UnmarshalBinary failed *)
  | PanicNilBucket.        (* method call on a nil *bolt.Bucket *)

#[global] Instance error_eq_dec : EqDecision error.
Proof. solve_decision. Defined.

Inductive result (A : Type) : Type :=
  | Ok (a : A)
  | Err (e : error).
Arguments Ok {A} a.
Arguments Err {A} e.

Definition rbind {A B} (r : result A) (k : A -> result B) : result B :=
  match r with
  | Ok a => k a
  | Err e => Err e
  end.

Declare Scope result_scope.
Delimit Scope result_scope with res.
Notation "x <- e ;; k" := (rbind e (fun x => k))
  (at level 100, e at next level, k at level 200, right associativity)
  : result_scope.

Definition is_ok {A} (r : result A) : bool :=
  match r with Ok _ => true | Err _ => false end.

(** ** The embedded store (go.etcd.io/bbolt), by its documented contract *)

Module bolt.

(** A bucket maps byte keys to either a value or a nested bucket. *)
Inductive node : Type :=
  | Leaf (v : string)
  | Sub (b : gmap string node).

Abbreviation Bucket := (gmap string node).

(** The root of a transaction holds buckets only: [Tx] has no [Put]. *)
Abbreviation Tx := (gmap string (gmap string node)).

Definition MaxKeySize : Z := 32768.
Definition MaxValueSize : Z := 2147483646.

Definition len (s : string) : Z := Z.of_nat (String.length s).

(** [b.Bucket(name)]: nil when the key is absent or holds a value. *)
Definition Bucket_Bucket (b : Bucket) (name : string) : option Bucket :=
  match b !! name with
  | Some (Sub c) => Some c
  | _ => None
  end.

(** [b.Get(key)]: nil when the key is absent or holds a bucket. *)
Definition Bucket_Get (b : Bucket) (key : string) : option string :=
  match b !! key with
  | Some (Leaf v) => Some v
  | _ => None
  end.

(** [b.Put(key, value)]. *)
Definition Bucket_Put (b : Bucket) (key value : string) : result Bucket :=
  if decide (key = "") then Err ErrKeyRequired
  else if decide (MaxKeySize < len key) then Err ErrKeyTooLarge
  else if decide (MaxValueSize < len value) then Err ErrValueTooLarge
  else match b !! key with
       | Some (Sub _) => Err ErrIncompatibleValue
       | _ => Ok (<[key := Leaf value]> b)
       end.

(** [b.CreateBucket(key)]: the updated parent and the new, empty child. *)
Definition Bucket_CreateBucket (b : Bucket) (key : string)
  : result (Bucket * Bucket) :=
  if decide (key = "") then Err ErrBucketNameRequired
  else match b !! key with
       | Some (Sub _) => Err ErrBucketExists
       | Some (Leaf _) => Err ErrIncompatibleValue
       | None => Ok (<[key := Sub ∅]> b, ∅)
       end.

(** [b.DeleteBucket(key)]: removes the child and all that is under it. *)
Definition Bucket_DeleteBucket (b : Bucket) (key : string) : result Bucket :=
  match b !! key with
  | None => Err ErrBucketNotFound
  | Some (Leaf _) => Err ErrIncompatibleValue
  | Some (Sub _) => Ok (delete key b)
  end.

(** A [*bolt.Bucket] is a handle into the transaction's tree: what is
    written through a child handle is seen from its parent.  In the
    embedding a child is a value, stored back under its key. *)
Definition Bucket_store (b : Bucket) (key : string) (c : Bucket) : Bucket :=
  <[key := Sub c]> b.

Definition key_le (x y : string * node) : Prop :=
  String.leb x.1 y.1 = true.

#[global] Instance key_le_dec x y : Decision (key_le x y).
Proof. unfold key_le. apply _. Defined.

(** The entries of a bucket in the order a cursor visits them: byte
    order of the keys. *)
Definition Bucket_entries (b : Bucket) : list (string * node) :=
  merge_sort key_le (map_to_list b).

(** What [ForEach] passes as [v]: nil for a nested bucket. *)
Definition value_of (n : node) : option string :=
  match n with
  | Leaf v => Some v
  | Sub _ => None
  end.

Fixpoint each {A} (l : list (string * node))
    (fn : string -> option string -> A -> result A) (a : A) : result A :=
  match l with
  | [] => Ok a
  | (k, n) :: l' =>
      match fn k (value_of n) a with
      | Ok a' => each l' fn a'
      | Err e => Err e
      end
  end.

(** [b.ForEach(fn)]: the callback's captured variables are the
    accumulator [a]; the first error stops the iteration. *)
Definition Bucket_ForEach {A} (b : Bucket)
    (fn : string -> option string -> A -> result A) (a : A) : result A :=
  each (Bucket_entries b) fn a.

(** [tx.Bucket(name)]. *)
Definition Tx_Bucket (tx : Tx) (name : string) : option Bucket :=
  tx !! name.

(** [tx.CreateBucketIfNotExists(name)]. *)
Definition Tx_CreateBucketIfNotExists (tx : Tx) (name : string)
  : result (Tx * Bucket) :=
  if decide (name = "") then Err ErrBucketNameRequired
  else match tx !! name with
       | Some b => Ok (tx, b)
       | None => Ok (<[name := ∅]> tx, ∅)
       end.

Definition Tx_store (tx : Tx) (name : string) (b : Bucket) : Tx :=
  <[name := b]> tx.

End bolt.
Import bolt.

(** ** Go maps as heap cells *)

(** A Go map value is a reference: copying a struct that holds a map
    copies the reference, and [delete] through one copy is seen through
    every other.  [None] is the nil map. *)
Definition loc : Type := positive.
Abbreviation GoMap := (gmap string string).
Abbreviation Heap := (gmap positive (gmap string string)).
Definition mapref : Type := option loc.

(** The entries of a map; a nil map reads as an empty one. *)
Definition deref (h : Heap) (r : mapref) : GoMap :=
  match r with
  | None => ∅
  | Some l => default ∅ (h !! l)
  end.

(** [m := map[string]string{...}]: a new cell. *)
Definition alloc (m : GoMap) (h : Heap) : Heap * loc :=
  let l := fresh (dom h) in (<[l := m]> h, l).

(** [delete(m, k)]. *)
Definition map_delete (r : mapref) (k : string) (h : Heap) : Heap :=
  match r with
  | None => h
  | Some l => alter (delete k) l h
  end.

(** Computations that may fail and may touch the heap of maps.  The heap
    is not transactional: what a failed call did to it stays done. *)
Definition M (A : Type) : Type := Heap -> Heap * result A.

Definition ret {A} (a : A) : M A := fun h => (h, Ok a).
Definition fail {A} (e : error) : M A := fun h => (h, Err e).
Definition lift {A} (r : result A) : M A := fun h => (h, r).
Definition bind {A B} (m : M A) (k : A -> M B) : M B :=
  fun h =>
    match m h with
    | (h', Ok a) => k a h'
    | (h', Err e) => (h', Err e)
    end.

Declare Scope heap_scope.
Delimit Scope heap_scope with heap.
Notation "x <~ e ;; k" := (bind e (fun x => k))
  (at level 100, e at next level, k at level 200, right associativity)
  : heap_scope.

(** ** Instants and their binary form *)

(** An instant, as a count of clock ticks; the zero [time.Time] is 0. *)
Definition Time : Type := Z.

(** [time.Time.MarshalBinary] and [UnmarshalBinary] belong to the Go
    library; the layer only relies on decoding what it encoded.  They are
    stood for by the decimal text of the instant. *)
Definition MarshalBinary (t : Time) : string :=
  NilZero.string_of_int (Z.to_int t).

Definition UnmarshalBinary (v : string) : result Time :=
  match NilZero.int_of_string v with
  | Some d => Ok (Z.of_int d)
  | None => Err ErrTimeUnmarshal
  end.

(** ** The data model of [metadata/scenario.go] *)

Record ObjectDefinition : Type := mkObject {
  Type_ : string;
  Reference : string;
  Chunker : string;
  Layout : string
}.

(** [Objects] is only ever read by this layer, so its identity cannot be
    observed and it is kept as a value ([None] is the nil map); [Seed] and
    [Benchmark] are pruned in place and are references. *)
Record ScenarioDefinition : Type := mkDefinition {
  Objects : option (gmap string ObjectDefinition);
  Seed : mapref;
  Benchmark : mapref
}.

Record Scenario : Type := mkScenario {
  ID : string; Definition_ : ScenarioDefinition;
  CreatedAt : Time; UpdatedAt : Time
}.

(** The zero values [ObjectDefinition{}], [ScenarioDefinition{}]. *)
Definition zeroObject : ObjectDefinition := mkObject "" "" "" "".
Definition zeroDefinition : ScenarioDefinition := mkDefinition None None None.

(** A database handle together with the heap of the process. *)
Record State : Type := mkState {
  db : Tx;
  heap : Heap
}.

(** ** Parts of the package that live outside [scenario.go] *)

(** Modelled from the spec: the reserved key names are declared in another
    file of the package; the spec has one top-level bucket per entity type,
    reserved leaf keys for the id and the two instants, and one sub-bucket
    per nested collection.  Only their being distinct matters. *)
Definition bucketKeyScenarios : string := "scenarios".
Definition bucketKeyID : string := "id".
Definition bucketKeyCreatedAt : string := "createdAt".
Definition bucketKeyUpdatedAt : string := "updatedAt".
Definition bucketKeyDefinition : string := "definition".
Definition bucketKeyObjects : string := "objects".
Definition bucketKeySeed : string := "seed".
Definition bucketKeyBenchmark : string := "benchmark".
Definition bucketKeyType : string := "type".
Definition bucketKeyReference : string := "reference".

(** Modelled from the spec: [getScenariosBucket] is declared in another
    file; it walks to the top-level bucket of the entity type and yields
    nil when that bucket is missing. *)
Definition getScenariosBucket (tx : Tx) : option Bucket :=
  Tx_Bucket tx bucketKeyScenarios.

(** Modelled from the spec: [createScenariosBucket] is declared in another
    file; it yields the top-level bucket of the entity type, creating it
    in the transaction when it is missing. *)
Definition createScenariosBucket (tx : Tx) : result (Tx * Bucket) :=
  Tx_CreateBucketIfNotExists tx bucketKeyScenarios.

(** Modelled from the spec: [DB.View] is declared in another file; it runs
    [fn] against a read-only snapshot.  The captured variables of the
    closure are the value [fn] returns. *)
Definition View {A} (fn : Tx -> M A) (st : State) : State * result A :=
  let (h, r) := fn (db st) (heap st) in
  (mkState (db st) h, r).

(** Modelled from the spec: [DB.Update] is declared in another file; it
    runs [fn] against a writable transaction, commits what [fn] built when
    it returns nil and rolls everything back when it returns an error. *)
Definition Update {A} (fn : Tx -> M (Tx * A)) (st : State) : State * result A :=
  match fn (db st) (heap st) with
  | (h, Ok (tx, a)) => (mkState tx h, Ok a)
  | (h, Err e) => (mkState (db st) h, Err e)
  end.

(** Modelled from the spec: [ReadTimestamps] is declared in another file;
    two reserved leaf keys hold the created and updated instants, and a
    missing leaf leaves the destination as it was. *)
Definition ReadTimestamps (bkt : Bucket) (created updated : Time)
  : result (Time * Time) :=
  (created <- match Bucket_Get bkt bucketKeyCreatedAt with
              | Some v => UnmarshalBinary v
              | None => Ok created
              end ;;
   updated <- match Bucket_Get bkt bucketKeyUpdatedAt with
              | Some v => UnmarshalBinary v
              | None => Ok updated
              end ;;
   Ok (created, updated))%res.

(** Modelled from the spec: [WriteTimestamps] is declared in another file;
    it is called with the bucket and the two instants of the record and
    writes each under its reserved leaf key.  What the helper does with a
    created leaf that is already there matters to the timestamps of an
    updated record alone; they are settled further down for every helper
    that does what section 4.4 says ([keeps_created]). *)
Definition WriteTimestamps (bkt : Bucket) (created updated : Time)
  : result Bucket :=
  (bkt <- Bucket_Put bkt bucketKeyCreatedAt (MarshalBinary created) ;;
   Bucket_Put bkt bucketKeyUpdatedAt (MarshalBinary updated))%res.

(** ** The codec of [scenario.go] *)

(** [string(v)] for a possibly nil byte slice. *)
Definition string_of_bytes (v : option string) : string := default "" v.

(** [for k, v := range m] over a snapshot of the entries.  Go leaves the
    order open; the order of [map_to_list] stands for one of them.  Every
    step acts on its own key, so a run without error ends the same for
    any order.  [range] is for a body that touches the heap of maps,
    [range_pure] for one that does not. *)
Fixpoint range {K V A} (l : list (K * V)) (body : K -> V -> A -> M A) (a : A)
  : M A :=
  match l with
  | [] => ret a
  | (k, v) :: l' => (a' <~ body k v a ;; range l' body a')%heap
  end.

Fixpoint range_pure {K V A} (l : list (K * V))
    (body : K -> V -> A -> result A) (a : A) : result A :=
  match l with
  | [] => Ok a
  | (k, v) :: l' => (a' <- body k v a ;; range_pure l' body a')%res
  end.

(** [bkt.ForEach(fn)] for a callback that allocates. *)
Fixpoint eachM {A} (l : list (string * node))
    (fn : string -> option string -> A -> M A) (a : A) : M A :=
  match l with
  | [] => ret a
  | (k, n) :: l' => (a' <~ fn k (value_of n) a ;; eachM l' fn a')%heap
  end.

Definition Bucket_ForEachM {A} (b : Bucket)
    (fn : string -> option string -> A -> M A) (a : A) : M A :=
  eachM (Bucket_entries b) fn a.

Definition delete_existing (bkt : Bucket) (name : string) : result Bucket :=
  match Bucket_Bucket bkt name with
  | Some _ => Bucket_DeleteBucket bkt name
  | None => Ok bkt
  end.

Definition readMap (bkt : Bucket) (name : string) : M mapref :=
  match Bucket_Bucket bkt name with
  | None => ret None
  | Some mbkt =>
      (m <~ lift (Bucket_ForEach mbkt
                   (fun k v (m : GoMap) => Ok (<[k := string_of_bytes v]> m))
                   ∅) ;;
       fun h => let (h', l) := alloc m h in (h', Ok (Some l)))%heap
  end.

(** The body of the loop of [writeMap]. *)
Definition putEntry (m : mapref) (k v : string) (mbkt : Bucket) : M Bucket :=
  if decide (v = "")
  then fun h => (map_delete m k h, Ok mbkt)
  else lift (Bucket_Put mbkt k v).

Definition writeMap (bkt : Bucket) (name : string) (m : mapref) : M Bucket :=
  (bkt <~ lift (delete_existing bkt name) ;;
   fun h =>
     if decide (size (deref h m) = 0%nat) then (h, Ok bkt)
     else
       (r <~ lift (Bucket_CreateBucket bkt name) ;;
        let '(bkt, mbkt) := r in
        mbkt <~ range (map_to_list (deref h m)) (putEntry m) mbkt ;;
        ret (Bucket_store bkt name mbkt)) h)%heap.

Definition readObject (k : string) (v : option string) (object : ObjectDefinition)
  : result ObjectDefinition :=
  if decide (k = bucketKeyType)
  then Ok (mkObject (string_of_bytes v) (Reference object)
                    (Chunker object) (Layout object))
  else if decide (k = bucketKeyReference)
  then Ok (mkObject (Type_ object) (string_of_bytes v)
                    (Chunker object) (Layout object))
  else Ok object.

Definition readObjects (bkt : Bucket)
  : result (option (gmap string ObjectDefinition)) :=
  match Bucket_Bucket bkt bucketKeyObjects with
  | None => Ok None
  | Some obkt =>
      (objects <- Bucket_ForEach obkt
                    (fun name _ (objects : gmap string ObjectDefinition) =>
                       match Bucket_Bucket obkt name with
                       | None => Ok objects
                       | Some nbkt =>
                           object <- Bucket_ForEach nbkt readObject zeroObject ;;
                           Ok (<[name := object]> objects)
                       end)
                    ∅ ;;
       Ok (Some objects))%res
  end.

Definition writeObject (name : string) (object : ObjectDefinition) (obkt : Bucket)
  : result Bucket :=
  (r <- Bucket_CreateBucket obkt name ;;
   let '(obkt, nbkt) := r in
   nbkt <- Bucket_Put nbkt bucketKeyType (Type_ object) ;;
   nbkt <- Bucket_Put nbkt bucketKeyReference (Reference object) ;;
   Ok (Bucket_store obkt name nbkt))%res.

Definition writeObjects (bkt : Bucket)
    (objects : option (gmap string ObjectDefinition)) : result Bucket :=
  (bkt <- delete_existing bkt bucketKeyObjects ;;
   if decide (size (default ∅ objects) = 0%nat) then Ok bkt
   else
     r <- Bucket_CreateBucket bkt bucketKeyObjects ;;
     let '(bkt, obkt) := r in
     obkt <- range_pure (map_to_list (default ∅ objects)) writeObject obkt ;;
     Ok (Bucket_store bkt bucketKeyObjects obkt))%res.

Definition readDefinition (bkt : Bucket) : M ScenarioDefinition :=
  match Bucket_Bucket bkt bucketKeyDefinition with
  | None => ret zeroDefinition
  | Some dbkt =>
      (objects <~ lift (readObjects dbkt) ;;
       seed <~ readMap dbkt bucketKeySeed ;;
       benchmark <~ readMap dbkt bucketKeyBenchmark ;;
       ret (mkDefinition objects seed benchmark))%heap
  end.

Definition writeDefinition (bkt : Bucket) (sdef : ScenarioDefinition) : M Bucket :=
  (bkt <~ lift (delete_existing bkt bucketKeyDefinition) ;;
   r <~ lift (Bucket_CreateBucket bkt bucketKeyDefinition) ;;
   let '(bkt, dbkt) := r in
   dbkt <~ lift (writeObjects dbkt (Objects sdef)) ;;
   dbkt <~ writeMap dbkt bucketKeySeed (Seed sdef) ;;
   dbkt <~ writeMap dbkt bucketKeyBenchmark (Benchmark sdef) ;;
   ret (Bucket_store bkt bucketKeyDefinition dbkt))%heap.

Definition readID (k : string) (v : option string) (scenario : Scenario)
  : result Scenario :=
  match v with
  | None => Ok scenario
  | Some v =>
      if decide (k = bucketKeyID)
      then Ok (mkScenario v (Definition_ scenario)
                          (CreatedAt scenario) (UpdatedAt scenario))
      else Ok scenario
  end.

Definition readScenario (bkt : Bucket) (scenario : Scenario) : M Scenario :=
  (ts <~ lift (ReadTimestamps bkt (CreatedAt scenario) (UpdatedAt scenario)) ;;
   sdef <~ readDefinition bkt ;;
   lift (Bucket_ForEach bkt readID
           (mkScenario (ID scenario) sdef ts.1 ts.2)))%heap.

Definition writeScenario (bkt : Bucket) (scenario : Scenario) : M Bucket :=
  (bkt <~ lift (WriteTimestamps bkt (CreatedAt scenario) (UpdatedAt scenario)) ;;
   bkt <~ writeDefinition bkt (Definition_ scenario) ;;
   lift (Bucket_Put bkt bucketKeyID (ID scenario)))%heap.

(** ** The operations of [scenario.go] *)

(** [Scenario{}] with the given id: what [GetScenario] and
    [ListScenarios] decode into. *)
Definition newScenario (id : string) : Scenario :=
  mkScenario id zeroDefinition 0 0.

Definition GetScenario (id : string) : State -> State * result Scenario :=
  View (fun tx =>
    match getScenariosBucket tx with
    | None => fail ErrNotFound
    | Some bkt =>
        match Bucket_Bucket bkt id with
        | None => fail ErrNotFound
        | Some cbkt => readScenario cbkt (newScenario id)
        end
    end).

(** The callback of [ListScenarios]: [readScenario] is called on
    [bkt.Bucket(k)] unchecked, and reading through a nil bucket panics. *)
Definition listScenario (bkt : Bucket) (k : string) (_ : option string)
    (scenarios : list Scenario) : M (list Scenario) :=
  match Bucket_Bucket bkt k with
  | None => fail PanicNilBucket
  | Some cbkt =>
      (scenario <~ readScenario cbkt (newScenario k) ;;
       ret (scenarios ++ [scenario])%list)%heap
  end.

Definition ListScenarios : State -> State * result (list Scenario) :=
  View (fun tx =>
    match getScenariosBucket tx with
    | None => ret []
    | Some bkt => Bucket_ForEachM bkt (listScenario bkt) []
    end).

(** [now] is what [time.Now().UTC()] returns during the call. *)
Definition CreateScenario (now : Time) (scenario : Scenario)
  : State -> State * result Scenario :=
  Update (fun tx =>
    (r <~ lift (createScenariosBucket tx) ;;
     let '(tx, bkt) := r in
     r <~ lift (match Bucket_CreateBucket bkt (ID scenario) with
                | Ok r => Ok r
                | Err ErrBucketExists => Err ErrAlreadyExists
                | Err e => Err e
                end) ;;
     let '(bkt, cbkt) := r in
     let scenario := mkScenario (ID scenario) (Definition_ scenario) now now in
     cbkt <~ writeScenario cbkt scenario ;;
     ret (Tx_store tx bucketKeyScenarios (Bucket_store bkt (ID scenario) cbkt),
          scenario))%heap).

Definition UpdateScenario (now : Time) (scenario : Scenario)
  : State -> State * result Scenario :=
  if decide (ID scenario = "") then fun st => (st, Err ErrInvalidArgument)
  else
    Update (fun tx =>
      (r <~ lift (createScenariosBucket tx) ;;
       let '(tx, bkt) := r in
       match Bucket_Bucket bkt (ID scenario) with
       | None => fail ErrNotFound
       | Some cbkt =>
           let scenario :=
             mkScenario (ID scenario) (Definition_ scenario)
                        (CreatedAt scenario) now in
           cbkt <~ writeScenario cbkt scenario ;;
           ret (Tx_store tx bucketKeyScenarios
                  (Bucket_store bkt (ID scenario) cbkt),
                scenario)
       end)%heap).

Definition DeleteScenario (id : string) : State -> State * result unit :=
  Update (fun tx =>
    match getScenariosBucket tx with
    | None => fail ErrNotFound
    | Some bkt =>
        lift (match Bucket_DeleteBucket bkt id with
              | Ok bkt => Ok (Tx_store tx bucketKeyScenarios bkt, tt)
              | Err ErrBucketNotFound => Err ErrNotFound
              | Err e => Err e
              end)
    end).

(** The store before anything was written, with no map allocated. *)
Definition emptyState : State := mkState ∅ ∅.

(** ** What a write stores: the vocabulary of the statements *)

(** A map without its empty-valued entries. *)
Definition strip (m : GoMap) : GoMap := filter (fun kv => kv.2 ≠ "") m.

(** Editing the map behind a reference in place. *)
Definition alter_map (f : GoMap -> GoMap) (r : mapref) (h : Heap) : Heap :=
  match r with
  | None => h
  | Some l => alter f l h
  end.

Definition prune (r : mapref) (h : Heap) : Heap := alter_map strip r h.

(** What the loop of [writeMap] removes from the map it runs over. *)
Definition drop_empty (l : list (string * string)) (mm : GoMap) : GoMap :=
  foldl (fun mm kv => if decide (kv.2 = "") then delete kv.1 mm else mm) mm l.

(** The heap after the two maps of a definition went through [writeMap]. *)
Definition pruned (sdef : ScenarioDefinition) (h : Heap) : Heap :=
  prune (Benchmark sdef) (prune (Seed sdef) h).

(** The sub-bucket [writeObjects] builds for one object. *)
Definition object_bucket (o : ObjectDefinition) : Bucket :=
  <[bucketKeyReference := Leaf (Reference o)]>
    (<[bucketKeyType := Leaf (Type_ o)]> ∅).

(** What is left of an object once it went through the store. *)
Definition stored_object (o : ObjectDefinition) : ObjectDefinition :=
  mkObject (Type_ o) (Reference o) "" "".

(** The sub-bucket [writeMap] builds for a map with at least one entry. *)
Definition map_bucket (m : GoMap) : Bucket := Leaf <$> strip m.

(** [writeMap] on a bucket that has no child of that name yet. *)
Definition with_map (name : string) (m : GoMap) (bkt : Bucket) : Bucket :=
  if decide (size m = 0%nat) then bkt
  else <[name := Sub (map_bucket m)]> bkt.

Definition with_objects (objects : gmap string ObjectDefinition) (bkt : Bucket)
  : Bucket :=
  if decide (size objects = 0%nat) then bkt
  else <[bucketKeyObjects := Sub ((fun o => Sub (object_bucket o)) <$> objects)]> bkt.

(** The definition bucket of a record written from [sdef] on heap [h]:
    the benchmark map is read after the seed map was pruned. *)
Definition definition_bucket (h : Heap) (sdef : ScenarioDefinition) : Bucket :=
  with_map bucketKeyBenchmark (deref (prune (Seed sdef) h) (Benchmark sdef))
    (with_map bucketKeySeed (deref h (Seed sdef))
       (with_objects (default ∅ (Objects sdef)) ∅)).

(** The record bucket [writeScenario] leaves. *)
Definition record_bucket (h : Heap) (scenario : Scenario) (bkt : Bucket) : Bucket :=
  <[bucketKeyID := Leaf (ID scenario)]>
    (<[bucketKeyDefinition := Sub (definition_bucket h (Definition_ scenario))]>
       (<[bucketKeyUpdatedAt := Leaf (MarshalBinary (UpdatedAt scenario))]>
          (<[bucketKeyCreatedAt := Leaf (MarshalBinary (CreatedAt scenario))]> bkt))).

(** The entries behind a definition, whatever cells hold them. *)
Record Contents : Type := mkContents {
  cObjects : gmap string ObjectDefinition;
  cSeed : GoMap;
  cBenchmark : GoMap
}.

Definition contents (h : Heap) (sdef : ScenarioDefinition) : Contents :=
  mkContents (default ∅ (Objects sdef)) (deref h (Seed sdef))
             (deref h (Benchmark sdef)).

(** The contents a definition has once it went through the store. *)
Definition stored_contents (h : Heap) (sdef : ScenarioDefinition) : Contents :=
  mkContents (stored_object <$> default ∅ (Objects sdef))
             (strip (deref h (Seed sdef)))
             (strip (deref h (Benchmark sdef))).

(** Walking the persisted layout. *)
Definition record_of (tx : Tx) (id : string) : option Bucket :=
  bkt ← getScenariosBucket tx; Bucket_Bucket bkt id.



(** ** What a read decodes: the reading side of the vocabulary *)

(** [string(v)] for what [ForEach] passes for a node. *)
Definition node_string (n : node) : string := string_of_bytes (value_of n).

Definition field_of (nb : Bucket) (key : string) : string :=
  match nb !! key with
  | Some n => node_string n
  | None => ""
  end.

(** What the inner loop of [readObjects] makes of an object bucket. *)
Definition decode_object (nb : Bucket) : ObjectDefinition :=
  mkObject (field_of nb bucketKeyType) (field_of nb bucketKeyReference) "" "".

Definition decode_node (n : node) : option ObjectDefinition :=
  match n with
  | Sub nb => Some (decode_object nb)
  | Leaf _ => None
  end.

Definition decode_objects (dbkt : Bucket) : option (gmap string ObjectDefinition) :=
  match Bucket_Bucket dbkt bucketKeyObjects with
  | Some obkt => Some (omap decode_node obkt)
  | None => None
  end.

(** The entries [readMap] decodes from the sub-bucket of a map. *)
Definition decode_map (dbkt : Bucket) (name : string) : GoMap :=
  match Bucket_Bucket dbkt name with
  | Some mbkt => node_string <$> mbkt
  | None => ∅
  end.

Definition decode_contents (bkt : Bucket) : Contents :=
  match Bucket_Bucket bkt bucketKeyDefinition with
  | Some dbkt =>
      mkContents (default ∅ (decode_objects dbkt))
                 (decode_map dbkt bucketKeySeed)
                 (decode_map dbkt bucketKeyBenchmark)
  | None => mkContents ∅ ∅ ∅
  end.

(** The id [readScenario] ends with: the id leaf wins over the key. *)
Definition decode_id (bkt : Bucket) (id : string) : string :=
  match bkt !! bucketKeyID with
  | Some (Leaf v) => v
  | _ => id
  end.

(** A reference that is nil or points to a cell of the heap. *)
Definition valid (h : Heap) (r : mapref) : Prop :=
  match r with
  | None => True
  | Some l => is_Some (h !! l)
  end.

(** ** Invariants of the stores this layer builds *)

(** Under the top-level bucket there are only record buckets: the layer
    never puts a value there. *)
Definition buckets_only (tx : Tx) : Prop :=
  ∀ bkt k, getScenariosBucket tx = Some bkt → Bucket_Get bkt k = None.

(** Every entry of the top-level bucket is a record as [writeScenario]
    leaves it, filed under its own id. *)
Definition records_ok (tx : Tx) : Prop :=
  ∀ bkt k n,
    getScenariosBucket tx = Some bkt → bkt !! k = Some n →
    ∃ h0 sc cb, n = Sub (record_bucket h0 sc cb) ∧ ID sc = k.


(** ** The timestamp helper as section 4.4 words it *)

(** The signature [writeScenario] calls [WriteTimestamps] with. *)
Definition TimestampWriter : Type := Bucket → Time → Time → result Bucket.



(** [writeScenario], [CreateScenario] and [UpdateScenario] of the source,
    with the helper that [writeScenario] calls as a parameter. *)
Definition writeScenarioWith (wt : TimestampWriter)
    (bkt : Bucket) (scenario : Scenario) : M Bucket :=
  (bkt <~ lift (wt bkt (CreatedAt scenario) (UpdatedAt scenario)) ;;
   bkt <~ writeDefinition bkt (Definition_ scenario) ;;
   lift (Bucket_Put bkt bucketKeyID (ID scenario)))%heap.

Definition CreateScenarioWith (wt : TimestampWriter)
    (now : Time) (scenario : Scenario) : State -> State * result Scenario :=
  Update (fun tx =>
    (r <~ lift (createScenariosBucket tx) ;;
     let '(tx, bkt) := r in
     r <~ lift (match Bucket_CreateBucket bkt (ID scenario) with
                | Ok r => Ok r
                | Err ErrBucketExists => Err ErrAlreadyExists
                | Err e => Err e
                end) ;;
     let '(bkt, cbkt) := r in
     let scenario := mkScenario (ID scenario) (Definition_ scenario) now now in
     cbkt <~ writeScenarioWith wt cbkt scenario ;;
     ret (Tx_store tx bucketKeyScenarios (Bucket_store bkt (ID scenario) cbkt),
          scenario))%heap).

Definition UpdateScenarioWith (wt : TimestampWriter)
    (now : Time) (scenario : Scenario) : State -> State * result Scenario :=
  if decide (ID scenario = "") then fun st => (st, Err ErrInvalidArgument)
  else
    Update (fun tx =>
      (r <~ lift (createScenariosBucket tx) ;;
       let '(tx, bkt) := r in
       match Bucket_Bucket bkt (ID scenario) with
       | None => fail ErrNotFound
       | Some cbkt =>
           let scenario :=
             mkScenario (ID scenario) (Definition_ scenario)
                        (CreatedAt scenario) now in
           cbkt <~ writeScenarioWith wt cbkt scenario ;;
           ret (Tx_store tx bucketKeyScenarios
                  (Bucket_store bkt (ID scenario) cbkt),
                scenario)
       end)%heap).


(** ** Concrete inputs *)

(** A scenario with one object that sets all four of its fields. *)
Definition oneObject : Scenario :=
  mkScenario "s"
    (mkDefinition
       (Some {["a" := mkObject "oci-image" "ref" "rabin" "balanced"]})
       None None)
    0 0.

(** The scenarios of the shrink example: objects a and b, then a alone. *)
Definition objectA : ObjectDefinition := mkObject "oci-image" "ref-a" "" "".
Definition objectB : ObjectDefinition := mkObject "oci-image" "ref-b" "" "".

Definition withAB : Scenario :=
  mkScenario "s2"
    (mkDefinition (Some (<["b" := objectB]> {["a" := objectA]})) None None) 0 0.

Definition withA : Scenario :=
  mkScenario "s2" (mkDefinition (Some {["a" := objectA]}) None None) 0 0.

(** The store after [withAB] was created at instant 1. *)
Definition afterAB : State := (CreateScenario 1 withAB emptyState).1.

(** A heap with one map that has an entry with a value and one without,
    and one map whose only entry has no value. *)
Definition someMaps : Heap :=
  <[2%positive := {["k" := ""]}]>
    {[1%positive := <["warm" := ""]> {["neighbors" := "get image"]}]}.

Definition seeded : Scenario :=
  mkScenario "s1" (mkDefinition None (Some 1%positive) (Some 2%positive)) 0 0.

Definition other : Scenario :=
  mkScenario "s1" (mkDefinition (Some {["a" := objectA]}) None None) 7 7.

(** The store after [seeded] was created at instant 10. *)
Definition afterSeeded : State :=
  (CreateScenario 10 seeded (mkState ∅ someMaps)).1.

(** The record "s" created at instant 10 with nothing in it. *)
Definition afterS : State := (CreateScenario 10 (newScenario "s") emptyState).1.

(** An update of "s" that carries another creation instant. *)
Definition backdated : Scenario := mkScenario "s" zeroDefinition 99 0.




(** The stores after records "x", "y" and "z" were created in turn. *)
Definition afterX : State := (CreateScenario 1 (newScenario "x") emptyState).1.
Definition afterXY : State := (CreateScenario 2 (newScenario "y") afterX).1.
Definition afterXYZ : State := (CreateScenario 3 (newScenario "z") afterXY).1.

(** ** Histories *)

(** The calls a client can make, and the state a sequence of them leaves,
    whether each call succeeds or fails. *)
Inductive call : Type :=
  | CallCreate (now : Time) (scenario : Scenario)
  | CallUpdate (now : Time) (scenario : Scenario)
  | CallDelete (id : string)
  | CallGet (id : string)
  | CallList.

Definition after_call (st : State) (c : call) : State :=
  match c with
  | CallCreate now scenario => (CreateScenario now scenario st).1
  | CallUpdate now scenario => (UpdateScenario now scenario st).1
  | CallDelete id => (DeleteScenario id st).1
  | CallGet id => (GetScenario id st).1
  | CallList => (ListScenarios st).1
  end.

Definition after_calls (cs : list call) (st : State) : State :=
  foldl after_call st cs.

(** ** Errors of the store and effects on the caller's maps *)

(** The errors that come from the embedded store itself. *)
Definition is_bolt_error (e : error) : bool :=
  match e with
  | ErrBucketExists | ErrBucketNotFound | ErrBucketNameRequired
  | ErrKeyRequired | ErrKeyTooLarge | ErrValueTooLarge
  | ErrIncompatibleValue => true
  | _ => false
  end.

(** A computation or a result that fails with store errors only. *)
Definition fails_in_store {A} (m : M A) : Prop :=
  ∀ h h' e, m h = (h', Err e) → is_bolt_error e = true.

Definition fails_in_store_pure {A} (r : result A) : Prop :=
  ∀ e, r = Err e → is_bolt_error e = true.

(** From [h] to [h'] no map gained or changed an entry, and the entries
    that went had no value and were in one of the maps [rs]. *)
Definition only_pruned (rs : list mapref) (h h' : Heap) : Prop :=
  ∀ r k,
    deref h' r !! k = deref h r !! k ∨
    (r ∈ rs ∧ deref h r !! k = Some "" ∧ deref h' r !! k = None).

(** A computation that does no more than that to the heap, whether it
    returns nil or an error. *)
Definition prunes_only {A} (rs : list mapref) (m : M A) : Prop :=
  ∀ h h' r, m h = (h', r) → only_pruned rs h h'.

(** A create that fails after it pruned: the seed map has an entry
    without a value, the benchmark map a valued entry without a key. *)
Definition badMaps : Heap :=
  <[3%positive := {["" := "get image"]}]>
    {[1%positive := <["warm" := ""]> {["neighbors" := "get image"]}]}.

Definition badBenchmark : Scenario :=
  mkScenario "s1" (mkDefinition None (Some 1%positive) (Some 3%positive)) 0 0.

(** ** Facts about the store primitives *)

Lemma MarshalBinary_roundtrip (t : Time) :
  UnmarshalBinary (MarshalBinary t) = Ok t.
Proof.
  unfold UnmarshalBinary, MarshalBinary.
  rewrite NilZero.isi.
  - by rewrite DecimalZ.of_to.
  - destruct t; simpl; try discriminate.
    intros [=H]. by destruct (Pos.to_uint p) eqn:E;
      try discriminate; apply (DecimalPos.Unsigned.to_uint_nonnil p).
  - destruct t; simpl; try discriminate.
    intros [=H]. by apply (DecimalPos.Unsigned.to_uint_nonnil p).
Qed.

Lemma entries_Permutation (b : Bucket) : Bucket_entries b ≡ₚ map_to_list b.
Proof. apply merge_sort_Permutation. Qed.

Lemma entries_NoDup (b : Bucket) : NoDup (Bucket_entries b).*1.
Proof. rewrite entries_Permutation. apply NoDup_fst_map_to_list. Qed.

Lemma entries_to_map (b : Bucket) : list_to_map (Bucket_entries b) = b.
Proof.
  rewrite <- (list_to_map_to_list b) at 2.
  apply list_to_map_proper; [apply entries_NoDup | apply entries_Permutation].
Qed.

Lemma entries_empty : Bucket_entries ∅ = [].
Proof.
  apply Permutation_nil_r. rewrite entries_Permutation.
  by rewrite map_to_list_empty.
Qed.

Lemma delete_existing_Ok (bkt : Bucket) (name : string) :
  delete_existing bkt name =
  Ok (match Bucket_Bucket bkt name with Some _ => delete name bkt | None => bkt end).
Proof.
  unfold delete_existing, Bucket_Bucket, Bucket_DeleteBucket.
  by destruct (bkt !! name) as [[]|].
Qed.

(** ** Inversion of successful runs *)

Lemma rbind_Ok {A B} (r : result A) (k : A -> result B) (b : B) :
  rbind r k = Ok b → ∃ a, r = Ok a ∧ k a = Ok b.
Proof. destruct r; simpl; [eauto | discriminate]. Qed.

Lemma bind_Ok {A B} (m : M A) (k : A -> M B) (h h' : Heap) (b : B) :
  bind m k h = (h', Ok b) → ∃ h1 a, m h = (h1, Ok a) ∧ k a h1 = (h', Ok b).
Proof.
  unfold bind. destruct (m h) as [h1 [a|e]]; [eauto | discriminate].
Qed.

Lemma lift_Ok {A} (r : result A) (h h' : Heap) (a : A) :
  lift r h = (h', Ok a) → h' = h ∧ r = Ok a.
Proof. unfold lift. by intros [= -> ->]. Qed.

Lemma ret_Ok {A} (a a' : A) (h h' : Heap) :
  ret a h = (h', Ok a') → h' = h ∧ a' = a.
Proof. unfold ret. by intros [= -> ->]. Qed.

Ltac inv_run :=
  repeat match goal with
         | H : bind _ _ _ = (_, Ok _) |- _ =>
             apply bind_Ok in H; destruct H as (? & ? & ? & H)
         | H : rbind _ _ = Ok _ |- _ =>
             apply rbind_Ok in H; destruct H as (? & ? & H)
         | H : lift _ _ = (_, Ok _) |- _ =>
             apply lift_Ok in H; destruct H as [-> H]
         | H : ret _ _ = (_, Ok _) |- _ =>
             apply ret_Ok in H; destruct H as [-> H]; simplify_eq
         | H : Ok _ = Ok _ |- _ => injection H as H; try subst
         | H : (let '(_, _) := ?r in _) _ = _ |- _ => destruct r
         | H : (let '(_, _) := ?r in _) = _ |- _ => destruct r
         end.

Lemma Put_Ok (b b' : Bucket) (k v : string) :
  Bucket_Put b k v = Ok b' →
  k ≠ "" ∧ b' = <[k := Leaf v]> b.
Proof.
  unfold Bucket_Put. repeat case_decide; try discriminate.
  destruct (b !! k) as [[]|]; intros [=]; by subst.
Qed.

Lemma CreateBucket_Ok (b b' c : Bucket) (k : string) :
  Bucket_CreateBucket b k = Ok (b', c) →
  k ≠ "" ∧ b !! k = None ∧ b' = <[k := Sub ∅]> b ∧ c = ∅.
Proof.
  unfold Bucket_CreateBucket. case_decide; try discriminate.
  destruct (b !! k) as [[]|]; intros [=]; by subst.
Qed.

(** ** The write loops *)

Lemma range_putEntry_heap (m : mapref) (l : list (string * string)) :
  ∀ mb h h' mb',
    range l (putEntry m) mb h = (h', Ok mb') →
    h' = alter_map (drop_empty l) m h.
Proof.
  induction l as [|[k v] l IH]; simpl; intros mb h h' mb' Hrun.
  - inv_run. destruct m; simpl; [|done].
    symmetry. by apply alter_id.
  - inv_run. unfold putEntry in H. case_decide as Hv.
    + injection H as <- <-. apply IH in Hrun as ->.
      destruct m as [c|]; simpl; [|done].
      rewrite alter_alter_eq. apply alter_ext. intros mm _. simpl.
      by rewrite decide_True.
    + inv_run. apply IH in Hrun as ->.
      destruct m as [c|]; simpl; [|done].
      apply alter_ext. intros mm _. simpl. by rewrite decide_False.
Qed.

Lemma range_putEntry_bucket (m : mapref) (l : list (string * string)) :
  ∀ mb h h' mb',
    NoDup l.*1 →
    range l (putEntry m) mb h = (h', Ok mb') →
    ∀ j, mb' !! j =
         match (list_to_map l : GoMap) !! j with
         | Some v => if decide (v = "") then mb !! j else Some (Leaf v)
         | None => mb !! j
         end.
Proof.
  induction l as [|[k v] l IH]; simpl; intros mb h h' mb' Hnd Hrun j.
  - inv_run. by rewrite lookup_empty.
  - apply NoDup_cons in Hnd as [Hk Hnd]. inv_run.
    rewrite (IH _ _ _ _ Hnd Hrun j).
    assert ((list_to_map l : GoMap) !! k = None) as Hnone
      by by apply not_elem_of_list_to_map_1.
    unfold putEntry in H. destruct (decide (j = k)) as [->|Hjk].
    + rewrite Hnone, lookup_insert_eq. case_decide.
      * by injection H as <- <-.
      * inv_run. apply Put_Ok in H as [_ ->]. by rewrite lookup_insert_eq.
    + rewrite lookup_insert_ne by done.
      assert (x0 !! j = mb !! j) as ->; [|done].
      case_decide.
      * by injection H as <- <-.
      * inv_run. apply Put_Ok in H as [_ ->]. by rewrite lookup_insert_ne.
Qed.

Lemma drop_empty_lookup (l : list (string * string)) :
  ∀ (mm : GoMap) j,
    drop_empty l mm !! j =
    if decide ((j, "") ∈ l) then None else mm !! j.
Proof.
  unfold drop_empty.
  induction l as [|[k v] l IH]; cbn [foldl fst snd]; intros mm j.
  - rewrite decide_False; [done | by apply not_elem_of_nil].
  - rewrite IH. destruct (decide ((j, "") ∈ l)) as [Hin|Hnin].
    + rewrite decide_True; [done | by right].
    + case_decide as Hv; subst.
      * destruct (decide (j = k)) as [->|Hjk].
        -- rewrite decide_True by left. by rewrite lookup_delete_eq.
        -- rewrite lookup_delete_ne by done.
           rewrite decide_False; [done|].
           intros [[=]|?]%elem_of_cons; done.
      * rewrite decide_False; [done|].
        intros [[=]|?]%elem_of_cons; subst; done.
Qed.

Lemma drop_empty_strip (mm : GoMap) : drop_empty (map_to_list mm) mm = strip mm.
Proof.
  apply map_eq. intros j. rewrite drop_empty_lookup. unfold strip.
  destruct (mm !! j) as [v|] eqn:Hj.
  - case_decide as Hin.
    + apply elem_of_map_to_list in Hin. symmetry.
      apply map_lookup_filter_None. right. intros x Hx. simpl. intros Hne.
      rewrite Hin in Hx. by injection Hx as <-.
    + symmetry. apply map_lookup_filter_Some. split; [done|]. simpl.
      intros ->. apply Hin. by apply elem_of_map_to_list.
  - case_decide; symmetry; apply map_lookup_filter_None; by left.
Qed.

Lemma strip_lookup (mm : GoMap) (j : string) :
  strip mm !! j =
  match mm !! j with
  | Some v => if decide (v = "") then None else Some v
  | None => None
  end.
Proof.
  unfold strip. destruct (mm !! j) as [v|] eqn:Hj.
  - case_decide as Hv.
    + apply map_lookup_filter_None. right. intros x Hx. simpl.
      rewrite Hj in Hx. injection Hx as <-. tauto.
    + apply map_lookup_filter_Some. by split.
  - apply map_lookup_filter_None. by left.
Qed.

Lemma strip_empty : strip ∅ = ∅.
Proof. apply map_eq. intros j. by rewrite strip_lookup, lookup_empty. Qed.

Lemma strip_strip (mm : GoMap) : strip (strip mm) = strip mm.
Proof.
  apply map_eq. intros j. rewrite !strip_lookup.
  destruct (mm !! j); [|done]. case_decide; [done|]. by rewrite decide_False.
Qed.

Lemma strip_no_empty (mm : GoMap) (j : string) : strip mm !! j ≠ Some "".
Proof.
  rewrite strip_lookup. destruct (mm !! j); [|done].
  case_decide; congruence.
Qed.



Lemma prune_size_0 (m : mapref) (h : Heap) :
  size (deref h m) = 0%nat → prune m h = h.
Proof.
  intros Hsz. destruct m as [c|]; simpl; [|done].
  apply alter_id. intros x Hx. simpl in Hsz. rewrite Hx in Hsz. simpl in Hsz.
  apply map_size_empty_inv in Hsz as ->. apply strip_empty.
Qed.

Lemma with_map_lookup_ne (name j : string) (m : GoMap) (b : Bucket) :
  j ≠ name → with_map name m b !! j = b !! j.
Proof.
  intros Hne. unfold with_map. case_decide; [done|].
  by rewrite lookup_insert_ne.
Qed.

Lemma with_objects_lookup_ne (j : string) objects (b : Bucket) :
  j ≠ bucketKeyObjects → with_objects objects b !! j = b !! j.
Proof.
  intros Hne. unfold with_objects. case_decide; [done|].
  by rewrite lookup_insert_ne.
Qed.

Lemma Bucket_Get_None_delete (b : Bucket) (name : string) :
  Bucket_Get b name = None →
  match Bucket_Bucket b name with Some _ => delete name b | None => b end
  = delete name b.
Proof.
  unfold Bucket_Get, Bucket_Bucket.
  destruct (b !! name) as [[]|] eqn:Hb; try done.
  intros _. symmetry. by apply delete_id.
Qed.

(** [writeMap], when it returns nil: the map is pruned in place, what was
    under the name is gone, and a new sub-bucket holds the entries with a
    value when the map had any entry at all. *)
Lemma writeMap_Ok (bkt bkt' : Bucket) (name : string) (m : mapref) (h h' : Heap) :
  Bucket_Get bkt name = None →
  writeMap bkt name m h = (h', Ok bkt') →
  h' = prune m h ∧ bkt' = with_map name (deref h m) (delete name bkt).
Proof.
  intros Hget Hrun. unfold writeMap in Hrun. rewrite delete_existing_Ok in Hrun.
  rewrite (Bucket_Get_None_delete _ _ Hget) in Hrun.
  apply bind_Ok in Hrun as (h1 & b0 & Hl & Hrun).
  apply lift_Ok in Hl as [-> [= <-]].
  unfold with_map. case_decide as Hsz.
  - injection Hrun as <- <-. by rewrite prune_size_0.
  - inv_run. apply CreateBucket_Ok in H as (_ & _ & -> & ->).
    split.
    + apply range_putEntry_heap in H0 as ->.
      destruct m as [c|]; simpl; [|done].
      apply alter_ext. intros x Hx. rewrite Hx. simpl. apply drop_empty_strip.
    + unfold Bucket_store. rewrite insert_insert_eq. do 2 f_equal.
      apply map_eq. intros j.
      rewrite (range_putEntry_bucket _ _ _ _ _ _
                 (NoDup_fst_map_to_list _) H0 j).
      rewrite list_to_map_to_list. unfold map_bucket.
      rewrite lookup_fmap, strip_lookup, lookup_empty.
      destruct (deref h m !! j); [|done]. by case_decide.
Qed.

Lemma writeObject_Ok (name : string) (o : ObjectDefinition) (ob ob' : Bucket) :
  writeObject name o ob = Ok ob' →
  ob' = <[name := Sub (object_bucket o)]> ob.
Proof.
  unfold writeObject. intros Hrun. inv_run.
  apply CreateBucket_Ok in H as (_ & _ & -> & ->).
  apply Put_Ok in H0 as [_ ->]. apply Put_Ok in H1 as [_ ->].
  unfold Bucket_store. by rewrite insert_insert_eq.
Qed.

Lemma range_writeObject (l : list (string * ObjectDefinition)) :
  ∀ ob ob',
    NoDup l.*1 →
    range_pure l writeObject ob = Ok ob' →
    ∀ j, ob' !! j =
         match (list_to_map l : gmap string ObjectDefinition) !! j with
         | Some o => Some (Sub (object_bucket o))
         | None => ob !! j
         end.
Proof.
  induction l as [|[k o] l IH]; simpl; intros ob ob' Hnd Hrun j.
  - inv_run. by rewrite lookup_empty.
  - apply NoDup_cons in Hnd as [Hk Hnd]. inv_run.
    rewrite (IH _ _ Hnd Hrun j). apply writeObject_Ok in H as ->.
    assert ((list_to_map l : gmap string ObjectDefinition) !! k = None)
      as Hnone by by apply not_elem_of_list_to_map_1.
    destruct (decide (j = k)) as [->|Hjk].
    + by rewrite Hnone, !lookup_insert_eq.
    + by rewrite !lookup_insert_ne.
Qed.

Lemma writeObjects_Ok (bkt bkt' : Bucket) objects :
  Bucket_Get bkt bucketKeyObjects = None →
  writeObjects bkt objects = Ok bkt' →
  bkt' = with_objects (default ∅ objects) (delete bucketKeyObjects bkt).
Proof.
  intros Hget Hrun. unfold writeObjects in Hrun.
  rewrite delete_existing_Ok, (Bucket_Get_None_delete _ _ Hget) in Hrun.
  simpl in Hrun. unfold with_objects. case_decide as Hsz.
  - by injection Hrun as <-.
  - inv_run. apply CreateBucket_Ok in H as (_ & _ & -> & ->).
    unfold Bucket_store. rewrite insert_insert_eq. do 2 f_equal.
    apply map_eq. intros j.
    rewrite (range_writeObject _ _ _ (NoDup_fst_map_to_list _) H0 j).
    rewrite list_to_map_to_list, lookup_fmap, lookup_empty.
    by destruct (default ∅ objects !! j).
Qed.

Lemma writeDefinition_Ok (bkt bkt' : Bucket) sdef (h h' : Heap) :
  writeDefinition bkt sdef h = (h', Ok bkt') →
  h' = pruned sdef h ∧
  bkt' = <[bucketKeyDefinition := Sub (definition_bucket h sdef)]> bkt.
Proof.
  intros Hrun. unfold writeDefinition in Hrun.
  rewrite delete_existing_Ok in Hrun. inv_run.
  select (Bucket_CreateBucket _ _ = _)
    (fun H => apply CreateBucket_Ok in H as (_ & Hfresh & -> & ->)).
  select (writeObjects _ _ = _)
    (fun H => apply writeObjects_Ok in H as ->; [|done]).
  rewrite delete_empty in *.
  select (writeMap _ bucketKeySeed _ _ = _)
    (fun H => apply writeMap_Ok in H as [-> ->]).
  2:{ unfold Bucket_Get. by rewrite with_objects_lookup_ne, lookup_empty. }
  select (writeMap _ bucketKeyBenchmark _ _ = _)
    (fun H => apply writeMap_Ok in H as [-> ->]).
  2:{ unfold Bucket_Get. rewrite with_map_lookup_ne by done.
      rewrite lookup_delete_ne by done.
      by rewrite with_objects_lookup_ne, lookup_empty. }
  rewrite (delete_id (with_objects _ _))
    by by rewrite with_objects_lookup_ne, lookup_empty.
  rewrite (delete_id (with_map _ _ _))
    by by rewrite with_map_lookup_ne, with_objects_lookup_ne, lookup_empty.
  split; [done|]. unfold Bucket_store, definition_bucket.
  rewrite insert_insert_eq.
  destruct (Bucket_Bucket bkt bucketKeyDefinition); [|done].
  by rewrite insert_delete_eq.
Qed.

Lemma writeScenario_Ok (bkt bkt' : Bucket) scenario (h h' : Heap) :
  writeScenario bkt scenario h = (h', Ok bkt') →
  h' = pruned (Definition_ scenario) h ∧ bkt' = record_bucket h scenario bkt.
Proof.
  intros Hrun. unfold writeScenario, WriteTimestamps in Hrun. inv_run.
  repeat select (Bucket_Put _ _ _ = _) (fun H => apply Put_Ok in H as [_ ->]).
  select (writeDefinition _ _ _ = _)
    (fun H => apply writeDefinition_Ok in H as [-> ->]).
  done.
Qed.

(** ** The read loops *)

Lemma each_readMap (l : list (string * node)) :
  ∀ acc : GoMap,
    NoDup l.*1 →
    ∃ acc', each l (fun k v m => Ok (<[k := string_of_bytes v]> m)) acc = Ok acc' ∧
            ∀ j, acc' !! j =
                 match (list_to_map l : Bucket) !! j with
                 | Some n => Some (node_string n)
                 | None => acc !! j
                 end.
Proof.
  induction l as [|[k n] l IH]; simpl; intros acc Hnd.
  - exists acc. split; [done|]. intros j. by rewrite lookup_empty.
  - apply NoDup_cons in Hnd as [Hk Hnd].
    destruct (IH (<[k := string_of_bytes (value_of n)]> acc) Hnd)
      as (acc' & -> & Hacc).
    exists acc'. split; [done|]. intros j. rewrite Hacc.
    assert ((list_to_map l : Bucket) !! k = None) as Hnone
      by by apply not_elem_of_list_to_map_1.
    destruct (decide (j = k)) as [->|Hjk].
    + by rewrite Hnone, !lookup_insert_eq.
    + by rewrite !lookup_insert_ne.
Qed.

Lemma ForEach_readMap (mbkt : Bucket) :
  Bucket_ForEach mbkt (fun k v (m : GoMap) => Ok (<[k := string_of_bytes v]> m)) ∅
  = Ok (node_string <$> mbkt).
Proof.
  unfold Bucket_ForEach.
  destruct (each_readMap (Bucket_entries mbkt) ∅ (entries_NoDup _))
    as (acc' & -> & Hacc).
  f_equal. apply map_eq. intros j.
  rewrite Hacc, entries_to_map, lookup_fmap, lookup_empty.
  by destruct (mbkt !! j).
Qed.

Lemma each_readObject (l : list (string * node)) :
  ∀ o : ObjectDefinition,
    NoDup l.*1 →
    each l readObject o =
    Ok (mkObject
          (match (list_to_map l : Bucket) !! bucketKeyType with
           | Some n => node_string n
           | None => Type_ o
           end)
          (match (list_to_map l : Bucket) !! bucketKeyReference with
           | Some n => node_string n
           | None => Reference o
           end)
          (Chunker o) (Layout o)).
Proof.
  induction l as [|[k n] l IH]; cbn [each]; intros o Hnd.
  - rewrite list_to_map_nil, !lookup_empty. by destruct o.
  - apply NoDup_cons in Hnd as [Hk Hnd].
    assert ((list_to_map l : Bucket) !! k = None) as Hnone
      by by apply not_elem_of_list_to_map_1.
    unfold readObject at 1. rewrite list_to_map_cons.
    destruct (decide (k = bucketKeyType)) as [->|Hkt].
    + rewrite IH by done. cbn [Type_ Reference Chunker Layout].
      rewrite Hnone, lookup_insert_eq, lookup_insert_ne by done. done.
    + destruct (decide (k = bucketKeyReference)) as [->|Hkr].
      * rewrite IH by done. cbn [Type_ Reference Chunker Layout].
        rewrite Hnone, lookup_insert_eq, lookup_insert_ne by done. done.
      * rewrite IH by done. by rewrite !lookup_insert_ne.
Qed.

Lemma ForEach_readObject (nbkt : Bucket) :
  Bucket_ForEach nbkt readObject zeroObject = Ok (decode_object nbkt).
Proof.
  unfold Bucket_ForEach. rewrite each_readObject by apply entries_NoDup.
  rewrite entries_to_map. unfold decode_object, field_of. simpl.
  by destruct (nbkt !! bucketKeyType), (nbkt !! bucketKeyReference).
Qed.

(** The callback of the outer loop of [readObjects]. *)
Lemma each_readObjects (obkt : Bucket) (l : list (string * node)) :
  ∀ acc : gmap string ObjectDefinition,
    NoDup l.*1 →
    (∀ k n, (k, n) ∈ l → obkt !! k = Some n) →
    ∃ acc',
      each l (fun name _ objects =>
                match Bucket_Bucket obkt name with
                | None => Ok objects
                | Some nbkt =>
                    (object <- Bucket_ForEach nbkt readObject zeroObject ;;
                     Ok (<[name := object]> objects))%res
                end) acc = Ok acc' ∧
      ∀ j, acc' !! j =
           match (list_to_map l : Bucket) !! j with
           | Some (Sub nb) => Some (decode_object nb)
           | _ => acc !! j
           end.
Proof.
  induction l as [|[k n] l IH]; cbn [each]; intros acc Hnd Hl.
  - exists acc. split; [done|]. intros j.
    by rewrite list_to_map_nil, lookup_empty.
  - apply NoDup_cons in Hnd as [Hk Hnd].
    assert ((list_to_map l : Bucket) !! k = None) as Hnone
      by by apply not_elem_of_list_to_map_1.
    assert (∀ k n, (k, n) ∈ l → obkt !! k = Some n) as Hl'
      by (intros; apply Hl; by right).
    unfold Bucket_Bucket at 1. rewrite (Hl k n) by left.
    destruct n as [v|nb].
    + destruct (IH acc Hnd Hl') as (acc' & -> & Hacc).
      exists acc'. split; [done|]. intros j. rewrite Hacc, list_to_map_cons.
      destruct (decide (j = k)) as [->|Hjk].
      * by rewrite Hnone, lookup_insert_eq.
      * by rewrite lookup_insert_ne.
    + rewrite ForEach_readObject. cbn [rbind].
      destruct (IH (<[k := decode_object nb]> acc) Hnd Hl') as (acc' & -> & Hacc).
      exists acc'. split; [done|]. intros j. rewrite Hacc, list_to_map_cons.
      destruct (decide (j = k)) as [->|Hjk].
      * by rewrite Hnone, !lookup_insert_eq.
      * rewrite !lookup_insert_ne by done. done.
Qed.

Lemma readObjects_spec (dbkt : Bucket) : readObjects dbkt = Ok (decode_objects dbkt).
Proof.
  unfold readObjects, decode_objects.
  destruct (Bucket_Bucket dbkt bucketKeyObjects) as [obkt|]; [|done].
  unfold Bucket_ForEach at 1.
  destruct (each_readObjects obkt (Bucket_entries obkt) ∅ (entries_NoDup _))
    as (acc' & -> & Hacc).
  { intros k n Hin. rewrite entries_Permutation in Hin.
    by apply elem_of_map_to_list. }
  simpl. do 2 f_equal. apply map_eq. intros j.
  rewrite Hacc, entries_to_map, lookup_omap, lookup_empty.
  by destruct (obkt !! j) as [[]|].
Qed.

Lemma each_readID (l : list (string * node)) :
  ∀ sc : Scenario,
    NoDup l.*1 →
    each l readID sc =
    Ok (mkScenario
          (match (list_to_map l : Bucket) !! bucketKeyID with
           | Some (Leaf v) => v
           | _ => ID sc
           end)
          (Definition_ sc) (CreatedAt sc) (UpdatedAt sc)).
Proof.
  induction l as [|[k n] l IH]; cbn [each]; intros sc Hnd.
  - rewrite list_to_map_nil, lookup_empty. by destruct sc.
  - apply NoDup_cons in Hnd as [Hk Hnd].
    assert ((list_to_map l : Bucket) !! k = None) as Hnone
      by by apply not_elem_of_list_to_map_1.
    rewrite list_to_map_cons. unfold readID at 1.
    destruct n as [v|nb]; cbn [value_of].
    + destruct (decide (k = bucketKeyID)) as [->|Hk'].
      * rewrite IH by done. cbn [ID Definition_ CreatedAt UpdatedAt].
        by rewrite Hnone, lookup_insert_eq.
      * rewrite IH by done. by rewrite lookup_insert_ne.
    + rewrite IH by done.
      destruct (decide (k = bucketKeyID)) as [->|Hk'].
      * by rewrite Hnone, lookup_insert_eq.
      * by rewrite lookup_insert_ne.
Qed.

Lemma ForEach_readID (bkt : Bucket) (sc : Scenario) :
  Bucket_ForEach bkt readID sc =
  Ok (mkScenario (decode_id bkt (ID sc)) (Definition_ sc)
                 (CreatedAt sc) (UpdatedAt sc)).
Proof.
  unfold Bucket_ForEach. rewrite each_readID by apply entries_NoDup.
  by rewrite entries_to_map.
Qed.

(** ** Allocation and references *)

Lemma alloc_spec (m : GoMap) (h : Heap) :
  ∃ l, alloc m h = (<[l := m]> h, l) ∧ h !! l = None.
Proof.
  exists (fresh (dom h)). split; [done|].
  apply not_elem_of_dom. apply is_fresh.
Qed.

Lemma deref_mono (h h' : Heap) (r : mapref) :
  h ⊆ h' → valid h r → deref h' r = deref h r.
Proof.
  intros Hsub Hv. destruct r as [l|]; simpl in *; [|done].
  destruct Hv as [x Hx]. rewrite Hx.
  by rewrite (lookup_weaken _ _ _ _ Hx Hsub).
Qed.

Lemma readMap_spec (bkt : Bucket) (name : string) (h : Heap) :
  ∃ h' r, readMap bkt name h = (h', Ok r) ∧ h ⊆ h' ∧ valid h' r ∧
          deref h' r = decode_map bkt name.
Proof.
  unfold readMap, decode_map.
  destruct (Bucket_Bucket bkt name) as [mbkt|].
  - unfold bind, lift. rewrite ForEach_readMap.
    destruct (alloc_spec (node_string <$> mbkt) h) as (l & -> & Hl).
    eexists _, _. split; [done|]. split; [by apply insert_subseteq|].
    simpl. rewrite lookup_insert_eq. eauto.
  - exists h, None. by repeat split.
Qed.

Lemma readDefinition_spec (bkt : Bucket) (h : Heap) :
  ∃ h' sdef, readDefinition bkt h = (h', Ok sdef) ∧ h ⊆ h' ∧
             contents h' sdef = decode_contents bkt.
Proof.
  unfold readDefinition, decode_contents.
  destruct (Bucket_Bucket bkt bucketKeyDefinition) as [dbkt|].
  - unfold bind at 1, lift. rewrite readObjects_spec.
    destruct (readMap_spec dbkt bucketKeySeed h) as (h1 & r1 & Hr1 & Hs1 & Hv1 & Hd1).
    destruct (readMap_spec dbkt bucketKeyBenchmark h1)
      as (h2 & r2 & Hr2 & Hs2 & Hv2 & Hd2).
    unfold bind. rewrite Hr1, Hr2. eexists _, _. split; [done|].
    split; [by etrans|]. unfold contents. simpl.
    by rewrite (deref_mono _ _ _ Hs2 Hv1), Hd1, Hd2.
  - exists h, zeroDefinition. by repeat split.
Qed.

Lemma readScenario_Ok (bkt : Bucket) (sc : Scenario) (h : Heap) (c u : Time) :
  ReadTimestamps bkt (CreatedAt sc) (UpdatedAt sc) = Ok (c, u) →
  ∃ h' sc', readScenario bkt sc h = (h', Ok sc') ∧ h ⊆ h' ∧
            ID sc' = decode_id bkt (ID sc) ∧
            CreatedAt sc' = c ∧ UpdatedAt sc' = u ∧
            contents h' (Definition_ sc') = decode_contents bkt.
Proof.
  intros Hts. unfold readScenario, bind at 1, lift. rewrite Hts.
  destruct (readDefinition_spec bkt h) as (h' & sdef & Hrd & Hsub & Hc).
  unfold bind. rewrite Hrd, ForEach_readID. simpl.
  eexists _, _. by repeat split.
Qed.

Lemma readScenario_Err (bkt : Bucket) (sc : Scenario) (h h' : Heap) (e : error) :
  readScenario bkt sc h = (h', Err e) → e = ErrTimeUnmarshal.
Proof.
  unfold readScenario, bind at 1, lift.
  destruct (ReadTimestamps bkt (CreatedAt sc) (UpdatedAt sc)) as [[c u]|e'] eqn:Hts.
  - destruct (readScenario_Ok bkt sc h c u Hts) as (h1 & sc1 & Hrun & _).
    unfold readScenario, bind at 1, lift in Hrun. rewrite Hts in Hrun.
    by rewrite Hrun.
  - intros [= _ <-]. unfold ReadTimestamps, UnmarshalBinary in Hts.
    repeat (destruct (Bucket_Get _ _) in Hts; simpl in Hts);
      repeat (destruct (NilZero.int_of_string _) in Hts; simpl in Hts);
      congruence.
Qed.

(** ** Reading what was written *)

Lemma ReadTimestamps_record (h0 : Heap) (sc : Scenario) (cb : Bucket) (c u : Time) :
  ReadTimestamps (record_bucket h0 sc cb) c u = Ok (CreatedAt sc, UpdatedAt sc).
Proof.
  unfold ReadTimestamps, record_bucket, Bucket_Get.
  rewrite !lookup_insert_ne, lookup_insert_eq by done.
  rewrite MarshalBinary_roundtrip. simpl.
  rewrite !lookup_insert_ne, lookup_insert_eq by done.
  by rewrite MarshalBinary_roundtrip.
Qed.

Lemma decode_id_record (h0 : Heap) (sc : Scenario) (cb : Bucket) (id : string) :
  decode_id (record_bucket h0 sc cb) id = ID sc.
Proof. unfold decode_id, record_bucket. by rewrite lookup_insert_eq. Qed.

Lemma decode_object_bucket (o : ObjectDefinition) :
  decode_object (object_bucket o) = stored_object o.
Proof.
  unfold decode_object, object_bucket, stored_object, field_of.
  rewrite lookup_insert_ne, !lookup_insert_eq by done. done.
Qed.

Lemma decode_map_bucket (mm : GoMap) : node_string <$> map_bucket mm = strip mm.
Proof.
  unfold map_bucket. rewrite <- map_fmap_compose.
  apply map_eq. intros j. rewrite lookup_fmap. by destruct (strip mm !! j).
Qed.

Lemma size_0_strip (mm : GoMap) : size mm = 0%nat → strip mm = ∅.
Proof. intros ->%map_size_empty_inv. apply strip_empty. Qed.

Lemma deref_prune (r r' : mapref) (h : Heap) :
  strip (deref (prune r h) r') = strip (deref h r').
Proof.
  destruct r as [l|], r' as [l'|]; simpl; try done.
  rewrite lookup_alter. case_decide; [subst|done].
  destruct (h !! l'); simpl; [apply strip_strip | done].
Qed.

Lemma decode_contents_record (h0 : Heap) (sc : Scenario) (cb : Bucket) :
  decode_contents (record_bucket h0 sc cb) = stored_contents h0 (Definition_ sc).
Proof.
  unfold decode_contents, record_bucket, Bucket_Bucket at 1.
  rewrite lookup_insert_ne, lookup_insert_eq by done.
  unfold stored_contents, definition_bucket. f_equal.
  - unfold decode_objects, Bucket_Bucket.
    rewrite !with_map_lookup_ne by done. unfold with_objects.
    case_decide as Hsz.
    + rewrite lookup_empty. simpl.
      apply map_size_empty_inv in Hsz as ->. by rewrite fmap_empty.
    + rewrite lookup_insert_eq. simpl. apply map_eq. intros j.
      rewrite lookup_omap, !lookup_fmap.
      destruct (default ∅ (Objects (Definition_ sc)) !! j); simpl; [|done].
      by rewrite decode_object_bucket.
  - unfold decode_map, Bucket_Bucket.
    rewrite with_map_lookup_ne by done. unfold with_map at 1.
    case_decide as Hsz.
    + rewrite with_objects_lookup_ne, lookup_empty by done.
      by rewrite size_0_strip.
    + rewrite lookup_insert_eq. apply decode_map_bucket.
  - unfold decode_map, Bucket_Bucket. unfold with_map at 1.
    rewrite <- (deref_prune (Seed (Definition_ sc))).
    case_decide as Hsz.
    + rewrite with_map_lookup_ne, with_objects_lookup_ne, lookup_empty by done.
      by rewrite size_0_strip.
    + rewrite lookup_insert_eq. apply decode_map_bucket.
Qed.

(** Reading back the record [writeScenario] left gives its id, its two
    instants and the stored contents of its definition. *)
Lemma read_written (h0 h : Heap) (sc sc0 : Scenario) (cb : Bucket) :
  ∃ h' sc', readScenario (record_bucket h0 sc cb) sc0 h = (h', Ok sc') ∧
            h ⊆ h' ∧ ID sc' = ID sc ∧
            CreatedAt sc' = CreatedAt sc ∧ UpdatedAt sc' = UpdatedAt sc ∧
            contents h' (Definition_ sc') = stored_contents h0 (Definition_ sc).
Proof.
  destruct (readScenario_Ok (record_bucket h0 sc cb) sc0 h _ _
              (ReadTimestamps_record h0 sc cb _ _))
    as (h' & sc' & Hrun & Hsub & Hid & Hc & Hu & Hcont).
  exists h', sc'. rewrite decode_id_record in Hid.
  rewrite decode_contents_record in Hcont. by repeat split.
Qed.

(** ** The operations, when they succeed *)

Lemma CreateScenario_Ok (now : Time) (sc sc1 : Scenario) (st st1 : State) :
  CreateScenario now sc st = (st1, Ok sc1) →
  let bkt := default ∅ (getScenariosBucket (db st)) in
  ID sc ≠ "" ∧ bkt !! ID sc = None ∧
  sc1 = mkScenario (ID sc) (Definition_ sc) now now ∧
  heap st1 = pruned (Definition_ sc) (heap st) ∧
  db st1 = <[bucketKeyScenarios :=
               <[ID sc := Sub (record_bucket (heap st) sc1 ∅)]> bkt]> (db st).
Proof.
  unfold CreateScenario, Update. intros Hrun.
  destruct (bind _ _ _) as [h1 [[tx1 a]|e]] eqn:Hbody in Hrun; [|done].
  injection Hrun as <- <-. simpl.
  unfold createScenariosBucket, Tx_CreateBucketIfNotExists in Hbody.
  rewrite decide_False in Hbody by done.
  unfold getScenariosBucket, Tx_Bucket.
  apply bind_Ok in Hbody as (h0 & [tx0 bkt] & Hl & Hbody).
  apply lift_Ok in Hl as [-> Hl].
  apply bind_Ok in Hbody as (h0 & [bkt' cbkt] & Hc & Hbody).
  apply lift_Ok in Hc as [-> Hc].
  apply bind_Ok in Hbody as (h2 & cb' & Hw & Hret).
  apply ret_Ok in Hret as [-> [= -> ->]].
  apply writeScenario_Ok in Hw as [-> ->].
  destruct (Bucket_CreateBucket bkt (ID sc)) as [[b' c']|e] eqn:Hcb;
    [|by destruct e].
  injection Hc as -> ->.
  apply CreateBucket_Ok in Hcb as (Hid & Hfresh & -> & ->).
  unfold Tx_store, Bucket_store. simpl. rewrite insert_insert_eq.
  destruct (db st !! bucketKeyScenarios) as [b0|] eqn:Hb0;
    injection Hl as <- <-; simpl.
  - by repeat split.
  - rewrite insert_insert_eq. by repeat split.
Qed.

Lemma UpdateScenario_Ok (now : Time) (sc sc1 : Scenario) (st st1 : State) :
  UpdateScenario now sc st = (st1, Ok sc1) →
  ∃ bkt cb,
    getScenariosBucket (db st) = Some bkt ∧
    Bucket_Bucket bkt (ID sc) = Some cb ∧ ID sc ≠ "" ∧
    sc1 = mkScenario (ID sc) (Definition_ sc) (CreatedAt sc) now ∧
    heap st1 = pruned (Definition_ sc) (heap st) ∧
    db st1 = <[bucketKeyScenarios :=
                 <[ID sc := Sub (record_bucket (heap st) sc1 cb)]> bkt]> (db st).
Proof.
  unfold UpdateScenario. case_decide as Hid; [done|].
  unfold Update. intros Hrun.
  destruct (bind _ _ _) as [h1 [[tx1 a]|e]] eqn:Hbody in Hrun; [|done].
  injection Hrun as <- <-. simpl.
  unfold createScenariosBucket, Tx_CreateBucketIfNotExists in Hbody.
  rewrite decide_False in Hbody by done.
  unfold getScenariosBucket, Tx_Bucket.
  apply bind_Ok in Hbody as (h0 & [tx0 bkt] & Hl & Hbody).
  apply lift_Ok in Hl as [-> Hl].
  destruct (Bucket_Bucket bkt (ID sc)) as [cb|] eqn:Hcb; [|done].
  apply bind_Ok in Hbody as (h2 & cb' & Hw & Hret).
  apply ret_Ok in Hret as [-> [= -> ->]].
  apply writeScenario_Ok in Hw as [-> ->].
  unfold Tx_store, Bucket_store. simpl.
  destruct (db st !! bucketKeyScenarios) as [b0|] eqn:Hb0;
    injection Hl as <- <-.
  - exists b0, cb. by repeat split.
  - unfold Bucket_Bucket in Hcb. by rewrite lookup_empty in Hcb.
Qed.

(** [GetScenario] on a store whose record [id] is a written record. *)
Lemma GetScenario_written (id : string) (st : State) (bkt cb : Bucket)
    (h0 : Heap) (sc : Scenario) :
  getScenariosBucket (db st) = Some bkt →
  bkt !! id = Some (Sub (record_bucket h0 sc cb)) →
  ∃ st' g, GetScenario id st = (st', Ok g) ∧
           db st' = db st ∧ heap st ⊆ heap st' ∧
           ID g = ID sc ∧ CreatedAt g = CreatedAt sc ∧
           UpdatedAt g = UpdatedAt sc ∧
           contents (heap st') (Definition_ g) = stored_contents h0 (Definition_ sc).
Proof.
  intros Hbkt Hrec. unfold GetScenario, View. rewrite Hbkt.
  unfold Bucket_Bucket. rewrite Hrec.
  destruct (read_written h0 (heap st) sc (newScenario id) cb)
    as (h' & g & -> & Hsub & Hid & Hc & Hu & Hcont).
  eexists _, _. by repeat split.
Qed.

Lemma getScenariosBucket_insert (tx : Tx) (b : Bucket) :
  getScenariosBucket (<[bucketKeyScenarios := b]> tx) = Some b.
Proof. unfold getScenariosBucket, Tx_Bucket. by rewrite lookup_insert_eq. Qed.

(** What [GetScenario] returns right after a successful create. *)
Lemma Create_then_Get (now : Time) (sc sc1 : Scenario) (st st1 : State) :
  CreateScenario now sc st = (st1, Ok sc1) →
  ∃ st2 g, GetScenario (ID sc) st1 = (st2, Ok g) ∧
           db st2 = db st1 ∧ heap st1 ⊆ heap st2 ∧
           ID g = ID sc ∧ CreatedAt g = now ∧ UpdatedAt g = now ∧
           contents (heap st2) (Definition_ g)
           = stored_contents (heap st) (Definition_ sc).
Proof.
  intros (Hid & Hfresh & -> & Hheap & Hdb)%CreateScenario_Ok.
  edestruct (GetScenario_written (ID sc) st1)
    as (st2 & g & Hg & Hdb2 & Hsub & Hgid & Hc & Hu & Hcont).
  - rewrite Hdb. apply getScenariosBucket_insert.
  - by rewrite lookup_insert_eq.
  - exists st2, g. by repeat split.
Qed.

(** What [GetScenario] returns right after a successful update. *)
Lemma Update_then_Get (now : Time) (sc sc1 : Scenario) (st st1 : State) :
  UpdateScenario now sc st = (st1, Ok sc1) →
  ∃ st2 g, GetScenario (ID sc) st1 = (st2, Ok g) ∧
           db st2 = db st1 ∧ heap st1 ⊆ heap st2 ∧
           ID g = ID sc ∧ CreatedAt g = CreatedAt sc ∧ UpdatedAt g = now ∧
           contents (heap st2) (Definition_ g)
           = stored_contents (heap st) (Definition_ sc).
Proof.
  intros (bkt & cb & Hbkt & Hcb & Hid & -> & Hheap & Hdb)%UpdateScenario_Ok.
  edestruct (GetScenario_written (ID sc) st1)
    as (st2 & g & Hg & Hdb2 & Hsub & Hgid & Hc & Hu & Hcont).
  - rewrite Hdb. apply getScenariosBucket_insert.
  - by rewrite lookup_insert_eq.
  - exists st2, g. by repeat split.
Qed.

(** ** Round trip (C1) *)

(** C1. Create then Get is claimed to return the definition that was
    written, with every scalar field of each object (Type, Reference,
    Chunker, Layout) recovered.  [writeObjects] puts only the type and
    the reference, and [readObjects] reads only those two: on [oneObject]
    the create succeeds and the object comes back with an empty Chunker
    and an empty Layout, so the decoded objects differ from the ones
    written. *)
Theorem C1_chunker_layout_lost :
  is_ok (CreateScenario 1 oneObject emptyState).2 = true ∧
  match (GetScenario "s" (CreateScenario 1 oneObject emptyState).1).2 with
  | Ok g =>
      Objects (Definition_ g) = Some {["a" := mkObject "oci-image" "ref" "" ""]} ∧
      Objects (Definition_ g) ≠ Objects (Definition_ oneObject)
  | Err _ => False
  end.
Proof. vm_compute. split; [done|]. split; [done|]. discriminate. Qed.

(** The round trip is about creates that succeed: the store refuses an
    empty key, so a seed entry with a value and no name fails the create. *)
Example empty_key_rejected :
  CreateScenario 1 (mkScenario "s" (mkDefinition None (Some 1%positive) None) 0 0)
    (mkState ∅ {[1%positive := {["" := "get image"]}]})
  = (mkState ∅ {[1%positive := {["" := "get image"]}]}, Err ErrKeyRequired).
Proof. by vm_compute. Qed.

(** ** Rollback (C2) *)

Lemma Update_Err {A} (fn : Tx -> M (Tx * A)) (st st' : State) (e : error) :
  Update fn st = (st', Err e) → db st' = db st.
Proof.
  unfold Update. destruct (fn (db st) (heap st)) as [h [[tx a]|e']]; [done|].
  by intros [= <- _].
Qed.

(** C2. Whenever CreateScenario, UpdateScenario or DeleteScenario returns
    an error, the persisted store after the call is the store before it:
    nothing the failed transaction created or changed is kept. *)
Theorem C2_failed_write_rolls_back
    (now : Time) (sc : Scenario) (id : string) (st st' : State) (e : error) :
  CreateScenario now sc st = (st', Err e) ∨
  UpdateScenario now sc st = (st', Err e) ∨
  DeleteScenario id st = (st', @Err unit e) →
  db st' = db st.
Proof.
  intros [H|[H|H]].
  - unfold CreateScenario in H. by apply Update_Err in H.
  - unfold UpdateScenario in H. case_decide.
    + by injection H as <- _.
    + by apply Update_Err in H.
  - unfold DeleteScenario in H. by apply Update_Err in H.
Qed.

(** An update of a record that is not there, on a store that has no
    top-level bucket yet: the bucket the transaction created is not kept. *)
Lemma C2_failed_write_rolls_back_witness :
  UpdateScenario 1 (newScenario "x") emptyState = (emptyState, Err ErrNotFound) ∧
  db emptyState = db emptyState.
Proof.
  split; [by vm_compute|].
  apply (C2_failed_write_rolls_back 1 (newScenario "x") "x"
           emptyState emptyState ErrNotFound).
  right; left. by vm_compute.
Defined.

(** ** Wholesale replacement (C3) *)

(** C3. After a successful UpdateScenario, GetScenario decodes exactly
    what the new write holds and nothing of the prior version: the decoded
    contents are a function of the written definition alone, the object
    names are those of the new write, and the seed and benchmark entries
    are those of the new maps that carry a value. *)
Theorem C3_update_replaces
    (now : Time) (sc sc1 : Scenario) (st st1 : State) :
  UpdateScenario now sc st = (st1, Ok sc1) →
  ∃ st2 g,
    GetScenario (ID sc) st1 = (st2, Ok g) ∧
    contents (heap st2) (Definition_ g)
    = stored_contents (heap st) (Definition_ sc) ∧
    dom (cObjects (contents (heap st2) (Definition_ g)))
    = dom (default ∅ (Objects (Definition_ sc))) ∧
    cSeed (contents (heap st2) (Definition_ g))
    = strip (deref (heap st) (Seed (Definition_ sc))) ∧
    cBenchmark (contents (heap st2) (Definition_ g))
    = strip (deref (heap st) (Benchmark (Definition_ sc))).
Proof.
  intros Hup.
  destruct (Update_then_Get _ _ _ _ _ Hup)
    as (st2 & g & Hget & _ & _ & _ & _ & _ & Hcont).
  exists st2, g. split; [done|]. split; [done|]. rewrite Hcont. simpl.
  split; [|done]. apply dom_fmap_L.
Qed.

(** The shrink example: objects a and b are stored, the update writes a. *)
Lemma C3_update_replaces_witness :
  UpdateScenario 2 withA afterAB
  = ((UpdateScenario 2 withA afterAB).1,
     Ok (mkScenario "s2" (Definition_ withA) 0 2)) ∧
  ∃ st2 g,
    GetScenario (ID withA) (UpdateScenario 2 withA afterAB).1 = (st2, Ok g) ∧
    contents (heap st2) (Definition_ g)
    = stored_contents (heap afterAB) (Definition_ withA) ∧
    dom (cObjects (contents (heap st2) (Definition_ g)))
    = dom (default ∅ (Objects (Definition_ withA))) ∧
    cSeed (contents (heap st2) (Definition_ g))
    = strip (deref (heap afterAB) (Seed (Definition_ withA))) ∧
    cBenchmark (contents (heap st2) (Definition_ g))
    = strip (deref (heap afterAB) (Benchmark (Definition_ withA))).
Proof.
  split; [by vm_compute|].
  apply (C3_update_replaces 2 withA (mkScenario "s2" (Definition_ withA) 0 2)
           afterAB (UpdateScenario 2 withA afterAB).1).
  by vm_compute.
Defined.

(** The same example evaluated: b was stored, and only a is read back. *)
Example shrink_example :
  is_Some (default ∅ (Objects (Definition_ withAB)) !! "b") ∧
  match (GetScenario "s2" (UpdateScenario 2 withA afterAB).1).2 with
  | Ok g => Objects (Definition_ g) = Some {["a" := objectA]}
  | Err _ => False
  end.
Proof. split; [by eexists | by vm_compute]. Qed.

(** ** Uniqueness (C5) *)

Lemma State_eta (st : State) : mkState (db st) (heap st) = st.
Proof. by destruct st. Qed.

Lemma CreateScenario_exists (now : Time) (sc : Scenario) (st : State)
    (bkt cb : Bucket) :
  getScenariosBucket (db st) = Some bkt →
  Bucket_Bucket bkt (ID sc) = Some cb →
  ID sc ≠ "" →
  CreateScenario now sc st = (st, Err ErrAlreadyExists).
Proof.
  intros Hbkt Hcb Hid. unfold CreateScenario, Update, bind, lift.
  unfold createScenariosBucket, Tx_CreateBucketIfNotExists.
  rewrite decide_False by done.
  unfold getScenariosBucket, Tx_Bucket in Hbkt. rewrite Hbkt.
  unfold Bucket_CreateBucket. rewrite decide_False by done.
  unfold Bucket_Bucket in Hcb.
  destruct (bkt !! ID sc) as [[]|]; try done.
  by rewrite State_eta.
Qed.

(** C5. Once a record was created under an id, creating under the same
    id fails with AlreadyExists whatever the second definition is, the
    state is left as it was, and GetScenario returns the record of the
    first create: its instants and the stored contents of its definition. *)
Theorem C5_create_existing_fails
    (now1 now2 : Time) (scA scA1 scB : Scenario) (st st1 : State) :
  CreateScenario now1 scA st = (st1, Ok scA1) →
  ID scB = ID scA →
  CreateScenario now2 scB st1 = (st1, Err ErrAlreadyExists) ∧
  ∃ st2 g,
    GetScenario (ID scA) st1 = (st2, Ok g) ∧
    ID g = ID scA ∧ CreatedAt g = now1 ∧ UpdatedAt g = now1 ∧
    contents (heap st2) (Definition_ g)
    = stored_contents (heap st) (Definition_ scA).
Proof.
  intros Hcreate Hid. split.
  - apply CreateScenario_Ok in Hcreate as (Hne & _ & _ & _ & Hdb).
    eapply CreateScenario_exists.
    + rewrite Hdb. apply getScenariosBucket_insert.
    + unfold Bucket_Bucket. by rewrite Hid, lookup_insert_eq.
    + by rewrite Hid.
  - destruct (Create_then_Get _ _ _ _ _ Hcreate)
      as (st2 & g & Hget & _ & _ & Hgid & Hc & Hu & Hcont).
    by exists st2, g.
Qed.

Lemma C5_create_existing_fails_witness :
  (CreateScenario 10 seeded (mkState ∅ someMaps)
   = (afterSeeded, Ok (mkScenario "s1" (Definition_ seeded) 10 10)) ∧
   ID other = ID seeded) ∧
  CreateScenario 20 other afterSeeded = (afterSeeded, Err ErrAlreadyExists) ∧
  ∃ st2 g,
    GetScenario (ID seeded) afterSeeded = (st2, Ok g) ∧
    ID g = ID seeded ∧ CreatedAt g = 10 ∧ UpdatedAt g = 10 ∧
    contents (heap st2) (Definition_ g)
    = stored_contents (heap (mkState ∅ someMaps)) (Definition_ seeded).
Proof.
  split; [split; by vm_compute|].
  apply (C5_create_existing_fails 10 20 seeded
           (mkScenario "s1" (Definition_ seeded) 10 10) other
           (mkState ∅ someMaps) afterSeeded); by vm_compute.
Defined.

(** ** The caller's maps are pruned in place (C10) *)

Lemma deref_prune_same (r : mapref) (h : Heap) :
  deref (prune r h) r = strip (deref h r).
Proof.
  destruct r as [l|]; simpl; [|by rewrite strip_empty].
  rewrite lookup_alter_eq. destruct (h !! l); simpl; [done|].
  by rewrite strip_empty.
Qed.

Lemma deref_prune_either (r r' : mapref) (h : Heap) :
  deref (prune r h) r' = deref h r' ∨ deref (prune r h) r' = strip (deref h r').
Proof.
  destruct (decide (r = r')) as [->|Hne].
  - right. apply deref_prune_same.
  - left. destruct r as [l|], r' as [l'|]; simpl; try done.
    rewrite lookup_alter_ne; [done | congruence].
Qed.

Lemma deref_pruned_Seed (sdef : ScenarioDefinition) (h : Heap) :
  deref (pruned sdef h) (Seed sdef) = strip (deref h (Seed sdef)).
Proof.
  unfold pruned.
  destruct (deref_prune_either (Benchmark sdef) (Seed sdef)
              (prune (Seed sdef) h)) as [-> | ->];
    rewrite deref_prune_same; [done | apply strip_strip].
Qed.

Lemma deref_pruned_Benchmark (sdef : ScenarioDefinition) (h : Heap) :
  deref (pruned sdef h) (Benchmark sdef) = strip (deref h (Benchmark sdef)).
Proof. unfold pruned. by rewrite deref_prune_same, deref_prune. Qed.

(** What a successful write returns and leaves in the heap. *)
Lemma write_Ok_returns (now : Time) (sc sc1 : Scenario) (st st1 : State) :
  CreateScenario now sc st = (st1, Ok sc1) ∨
  UpdateScenario now sc st = (st1, Ok sc1) →
  Definition_ sc1 = Definition_ sc ∧
  heap st1 = pruned (Definition_ sc) (heap st).
Proof.
  intros [H|H].
  - by apply CreateScenario_Ok in H as (_ & _ & -> & -> & _).
  - by apply UpdateScenario_Ok in H as (? & ? & _ & _ & _ & -> & -> & _).
Qed.

(** C10. After a successful CreateScenario or UpdateScenario the returned
    record holds the very map references it was given, and the maps behind
    them hold no empty-valued entry any more: they are the caller's maps,
    pruned in place. *)
Theorem C10_returned_maps_pruned
    (now : Time) (sc sc1 : Scenario) (st st1 : State) :
  CreateScenario now sc st = (st1, Ok sc1) ∨
  UpdateScenario now sc st = (st1, Ok sc1) →
  Seed (Definition_ sc1) = Seed (Definition_ sc) ∧
  Benchmark (Definition_ sc1) = Benchmark (Definition_ sc) ∧
  deref (heap st1) (Seed (Definition_ sc1))
  = strip (deref (heap st) (Seed (Definition_ sc))) ∧
  deref (heap st1) (Benchmark (Definition_ sc1))
  = strip (deref (heap st) (Benchmark (Definition_ sc))) ∧
  (∀ k, deref (heap st1) (Seed (Definition_ sc1)) !! k ≠ Some "") ∧
  (∀ k, deref (heap st1) (Benchmark (Definition_ sc1)) !! k ≠ Some "").
Proof.
  intros [-> ->]%write_Ok_returns.
  rewrite deref_pruned_Seed, deref_pruned_Benchmark.
  repeat split; auto using strip_no_empty.
Qed.

Lemma C10_returned_maps_pruned_witness :
  (CreateScenario 10 seeded (mkState ∅ someMaps)
   = (afterSeeded, Ok (mkScenario "s1" (Definition_ seeded) 10 10)) ∨
   UpdateScenario 10 seeded (mkState ∅ someMaps)
   = (afterSeeded, Ok (mkScenario "s1" (Definition_ seeded) 10 10))) ∧
  Seed (Definition_ seeded) = Seed (Definition_ seeded) ∧
  Benchmark (Definition_ seeded) = Benchmark (Definition_ seeded) ∧
  deref (heap afterSeeded) (Seed (Definition_ seeded))
  = strip (deref someMaps (Seed (Definition_ seeded))) ∧
  deref (heap afterSeeded) (Benchmark (Definition_ seeded))
  = strip (deref someMaps (Benchmark (Definition_ seeded))) ∧
  (∀ k, deref (heap afterSeeded) (Seed (Definition_ seeded)) !! k ≠ Some "") ∧
  (∀ k, deref (heap afterSeeded) (Benchmark (Definition_ seeded)) !! k ≠ Some "").
Proof.
  split; [left; by vm_compute|].
  apply (C10_returned_maps_pruned 10 seeded
           (mkScenario "s1" (Definition_ seeded) 10 10)
           (mkState ∅ someMaps) afterSeeded).
  left. by vm_compute.
Defined.

(** The same run evaluated: the entry without a value is gone from the
    caller's seed map, and its benchmark map is left empty. *)
Example pruned_example :
  deref someMaps (Some 1%positive) !! "warm" = Some "" ∧
  deref (heap afterSeeded) (Some 1%positive) = {["neighbors" := "get image"]} ∧
  deref (heap afterSeeded) (Some 2%positive) = ∅.
Proof. by vm_compute. Qed.

(** ** What a write leaves in the store *)

Lemma write_Ok_db (now : Time) (sc sc1 : Scenario) (st st1 : State) :
  CreateScenario now sc st = (st1, Ok sc1) ∨
  UpdateScenario now sc st = (st1, Ok sc1) →
  ∃ cb,
    db st1 = <[bucketKeyScenarios :=
                 <[ID sc := Sub (record_bucket (heap st) sc1 cb)]>
                   (default ∅ (getScenariosBucket (db st)))]> (db st).
Proof.
  intros [H|H].
  - apply CreateScenario_Ok in H as (_ & _ & _ & _ & ->). by exists ∅.
  - apply UpdateScenario_Ok in H as (bkt & cb & Hbkt & _ & _ & _ & _ & ->).
    exists cb. by rewrite Hbkt.
Qed.

Lemma record_of_written (tx : Tx) (bkt rec : Bucket) (id : string) :
  record_of (<[bucketKeyScenarios := <[id := Sub rec]> bkt]> tx) id = Some rec.
Proof.
  unfold record_of. rewrite getScenariosBucket_insert. simpl.
  unfold Bucket_Bucket. by rewrite lookup_insert_eq.
Qed.

Lemma record_of_other (tx : Tx) (rec : Bucket) (id id' : string) :
  id' ≠ id →
  record_of (<[bucketKeyScenarios :=
                 <[id := Sub rec]> (default ∅ (getScenariosBucket tx))]> tx) id'
  = record_of tx id'.
Proof.
  intros Hne. unfold record_of. rewrite getScenariosBucket_insert. simpl.
  unfold Bucket_Bucket at 1. rewrite lookup_insert_ne by done.
  destruct (getScenariosBucket tx) as [bkt|]; simpl; [done|].
  by rewrite lookup_empty.
Qed.

Lemma Bucket_Bucket_with_map (name : string) (mm : GoMap) (b : Bucket) :
  b !! name = None →
  Bucket_Bucket (with_map name mm b) name
  = if decide (size mm = 0%nat) then None else Some (map_bucket mm).
Proof.
  intros Hb. unfold Bucket_Bucket, with_map. case_decide.
  - by rewrite Hb.
  - by rewrite lookup_insert_eq.
Qed.




(** ** Seed and benchmark sub-buckets (C9) *)




(** ** Timestamps (C4) *)

(** With the helper of the model the parametrised functions are the
    functions of the model. *)
Lemma With_WriteTimestamps :
  writeScenarioWith WriteTimestamps = writeScenario ∧
  CreateScenarioWith WriteTimestamps = CreateScenario ∧
  UpdateScenarioWith WriteTimestamps = UpdateScenario.
Proof. done. Qed.










(** ** The stores the layer builds *)

Lemma records_ok_empty : records_ok ∅.
Proof.
  intros bkt k n Hbkt. unfold getScenariosBucket, Tx_Bucket in Hbkt.
  by rewrite lookup_empty in Hbkt.
Qed.

Lemma records_ok_buckets_only (tx : Tx) : records_ok tx → buckets_only tx.
Proof.
  intros Hok bkt k Hbkt. unfold Bucket_Get.
  destruct (bkt !! k) as [n|] eqn:Hk; [|done].
  by destruct (Hok bkt k n Hbkt Hk) as (h0 & sc & cb & -> & _).
Qed.

Lemma write_Ok_ID (now : Time) (sc sc1 : Scenario) (st st1 : State) :
  CreateScenario now sc st = (st1, Ok sc1) ∨
  UpdateScenario now sc st = (st1, Ok sc1) →
  ID sc1 = ID sc.
Proof.
  intros [H|H].
  - by apply CreateScenario_Ok in H as (_ & _ & -> & _).
  - by apply UpdateScenario_Ok in H as (? & ? & _ & _ & _ & -> & _).
Qed.

Lemma records_ok_write (now : Time) (sc sc1 : Scenario) (st st1 : State) :
  CreateScenario now sc st = (st1, Ok sc1) ∨
  UpdateScenario now sc st = (st1, Ok sc1) →
  records_ok (db st) → records_ok (db st1).
Proof.
  intros Hw Hok bkt k n Hbkt Hk.
  destruct (write_Ok_db _ _ _ _ _ Hw) as (cb & Hdb).
  rewrite Hdb, getScenariosBucket_insert in Hbkt. injection Hbkt as <-.
  destruct (decide (k = ID sc)) as [->|Hne].
  - rewrite lookup_insert_eq in Hk. injection Hk as <-.
    eexists _, _, _. split; [done|]. by eapply write_Ok_ID.
  - rewrite lookup_insert_ne in Hk by done.
    destruct (getScenariosBucket (db st)) as [bkt0|] eqn:Hb0; simpl in Hk.
    + by apply (Hok bkt0).
    + by rewrite lookup_empty in Hk.
Qed.

Lemma DeleteScenario_Ok (id : string) (st : State) (bkt cb : Bucket) :
  getScenariosBucket (db st) = Some bkt →
  Bucket_Bucket bkt id = Some cb →
  DeleteScenario id st
  = (mkState (<[bucketKeyScenarios := delete id bkt]> (db st)) (heap st), Ok tt).
Proof.
  intros Hbkt Hcb. unfold DeleteScenario, Update. rewrite Hbkt.
  unfold lift, Bucket_DeleteBucket. unfold Bucket_Bucket in Hcb.
  by destruct (bkt !! id) as [[]|].
Qed.

Lemma records_ok_delete (id : string) (st st1 : State) :
  DeleteScenario id st = (st1, Ok tt) →
  records_ok (db st) → records_ok (db st1).
Proof.
  unfold DeleteScenario, Update. intros Hrun Hok.
  destruct (getScenariosBucket (db st)) as [bkt0|] eqn:Hb0; [|done].
  unfold lift, Bucket_DeleteBucket in Hrun.
  destruct (bkt0 !! id) as [[]|] eqn:Hid; try done.
  injection Hrun as <-. simpl. intros bkt k n Hbkt Hk.
  unfold Tx_store in Hbkt. rewrite getScenariosBucket_insert in Hbkt.
  injection Hbkt as <-.
  apply lookup_delete_Some in Hk as [_ Hk]. by apply (Hok bkt0).
Qed.

Lemma View_db {A} (fn : Tx -> M A) (st : State) : db (View fn st).1 = db st.
Proof. unfold View. by destruct (fn (db st) (heap st)). Qed.

Lemma records_ok_call (st : State) (c : call) :
  records_ok (db st) → records_ok (db (after_call st c)).
Proof.
  intros Hok. destruct c as [now sc|now sc|id|id|]; simpl.
  - destruct (CreateScenario now sc st) as [st1 [sc1|e]] eqn:Hrun.
    + eapply records_ok_write; [by left | done].
    + unfold CreateScenario in Hrun. apply Update_Err in Hrun.
      simpl. by rewrite Hrun.
  - destruct (UpdateScenario now sc st) as [st1 [sc1|e]] eqn:Hrun.
    + eapply records_ok_write; [by right | done].
    + unfold UpdateScenario in Hrun. case_decide.
      * by injection Hrun as <- _.
      * apply Update_Err in Hrun. simpl. by rewrite Hrun.
  - destruct (DeleteScenario id st) as [st1 [[]|e]] eqn:Hrun.
    + by eapply records_ok_delete.
    + unfold DeleteScenario in Hrun. apply Update_Err in Hrun.
      simpl. by rewrite Hrun.
  - unfold GetScenario. by rewrite View_db.
  - unfold ListScenarios. by rewrite View_db.
Qed.

(** Whatever the clients called since the store was empty, every entry
    of the top-level bucket is a record filed under its own id. *)
Lemma records_ok_after_calls (cs : list call) (h : Heap) :
  records_ok (db (after_calls cs (mkState ∅ h))).
Proof.
  unfold after_calls.
  assert (records_ok (db (mkState ∅ h))) as Hok by apply records_ok_empty.
  revert Hok. generalize (mkState ∅ h).
  induction cs as [|c cs IH]; simpl; intros st Hok; [done|].
  apply IH. by apply records_ok_call.
Qed.

(** ** Update and delete of what is or is not there (C6, C7) *)

Lemma UpdateScenario_absent (now : Time) (sc : Scenario) (st : State) :
  ID sc ≠ "" →
  record_of (db st) (ID sc) = None →
  UpdateScenario now sc st = (st, Err ErrNotFound).
Proof.
  intros Hid Hnone. unfold UpdateScenario. rewrite decide_False by done.
  unfold Update, bind, lift, createScenariosBucket, Tx_CreateBucketIfNotExists.
  rewrite decide_False by done.
  unfold record_of, getScenariosBucket, Tx_Bucket in Hnone.
  destruct (db st !! bucketKeyScenarios) as [bkt|]; simpl in *.
  - rewrite Hnone. unfold fail. by rewrite State_eta.
  - unfold Bucket_Bucket. rewrite lookup_empty. unfold fail.
    by rewrite State_eta.
Qed.

(** C6. UpdateScenario with an empty id fails with InvalidArgument and
    touches nothing; with an id under which there is no record bucket it
    fails with NotFound; when it succeeds the record bucket was there
    before the call and is there after it. *)
Theorem C6_update_preconditions (now : Time) (sc : Scenario) (st : State) :
  (ID sc = "" → UpdateScenario now sc st = (st, Err ErrInvalidArgument)) ∧
  (ID sc ≠ "" → record_of (db st) (ID sc) = None →
   UpdateScenario now sc st = (st, Err ErrNotFound)) ∧
  (∀ st1 sc1,
     UpdateScenario now sc st = (st1, Ok sc1) →
     ID sc ≠ "" ∧
     is_Some (record_of (db st) (ID sc)) ∧
     is_Some (record_of (db st1) (ID sc))).
Proof.
  split; [|split].
  - intros Hid. unfold UpdateScenario. by rewrite decide_True.
  - apply UpdateScenario_absent.
  - intros st1 sc1 (bkt & cb & Hbkt & Hcb & Hid & _ & _ & ->)%UpdateScenario_Ok.
    split; [done|]. split.
    + exists cb. unfold record_of. by rewrite Hbkt.
    + rewrite record_of_written. by eexists.
Qed.

Lemma C6_update_preconditions_witness :
  (ID (newScenario "") = "" ∧
   UpdateScenario 20 (newScenario "") afterS
   = (afterS, Err ErrInvalidArgument)) ∧
  ((ID (newScenario "t") ≠ "" ∧ record_of (db afterS) (ID (newScenario "t")) = None) ∧
   UpdateScenario 20 (newScenario "t") afterS = (afterS, Err ErrNotFound)) ∧
  (UpdateScenario 20 backdated afterS
   = ((UpdateScenario 20 backdated afterS).1,
      Ok (mkScenario "s" zeroDefinition 99 20)) ∧
   ID backdated ≠ "" ∧
   is_Some (record_of (db afterS) (ID backdated)) ∧
   is_Some (record_of (db (UpdateScenario 20 backdated afterS).1) (ID backdated))).
Proof.
  assert (ID (newScenario "") = "") as H1 by done.
  assert (ID (newScenario "t") ≠ "") as H2 by done.
  assert (record_of (db afterS) (ID (newScenario "t")) = None) as H3
    by by vm_compute.
  assert (UpdateScenario 20 backdated afterS
          = ((UpdateScenario 20 backdated afterS).1,
             Ok (mkScenario "s" zeroDefinition 99 20))) as H4
    by by vm_compute.
  split; [|split].
  - split; [exact H1|].
    exact (proj1 (C6_update_preconditions 20 (newScenario "") afterS) H1).
  - split; [exact (conj H2 H3)|].
    exact (proj1 (proj2 (C6_update_preconditions 20 (newScenario "t") afterS))
             H2 H3).
  - split; [exact H4|].
    exact (proj2 (proj2 (C6_update_preconditions 20 backdated afterS)) _ _ H4).
Defined.

(** C7. DeleteScenario of an id under which there is no record, whether
    the top-level bucket is missing or holds no such record bucket, fails
    with NotFound and leaves the state as it was; of an id that has a
    record it succeeds, the record bucket is gone with all that was under
    it, the other records stay, and GetScenario of the id then fails with
    NotFound. *)
Theorem C7_delete (id : string) (st : State) :
  buckets_only (db st) →
  (record_of (db st) id = None →
   DeleteScenario id st = (st, Err ErrNotFound)) ∧
  (is_Some (record_of (db st) id) →
   ∃ st',
     DeleteScenario id st = (st', Ok tt) ∧
     record_of (db st') id = None ∧
     (∀ bkt', getScenariosBucket (db st') = Some bkt' → bkt' !! id = None) ∧
     (∀ id', id' ≠ id → record_of (db st') id' = record_of (db st) id') ∧
     heap st' = heap st ∧
     GetScenario id st' = (st', Err ErrNotFound)).
Proof.
  intros Honly. split.
  - intros Hnone. unfold DeleteScenario, Update.
    unfold record_of in Hnone.
    destruct (getScenariosBucket (db st)) as [bkt|] eqn:Hbkt; simpl in *.
    + unfold lift, Bucket_DeleteBucket.
      pose proof (Honly bkt id Hbkt) as Hget.
      unfold Bucket_Bucket in Hnone. unfold Bucket_Get in Hget.
      destruct (bkt !! id) as [[]|]; try done. by rewrite State_eta.
    + unfold fail. by rewrite State_eta.
  - intros [cb Hcb]. unfold record_of in Hcb.
    destruct (getScenariosBucket (db st)) as [bkt|] eqn:Hbkt; [|done].
    simpl in Hcb. eexists. split; [by apply (DeleteScenario_Ok id st bkt cb)|].
    simpl. unfold record_of. rewrite !getScenariosBucket_insert. simpl.
    unfold Bucket_Bucket. rewrite lookup_delete_eq.
    split; [done|]. split; [by intros ? [= <-]; apply lookup_delete_eq|].
    split; [|split; [done|]].
    + intros id' Hne. rewrite Hbkt. simpl. by rewrite lookup_delete_ne.
    + unfold GetScenario, View. simpl. rewrite getScenariosBucket_insert.
      unfold Bucket_Bucket. by rewrite lookup_delete_eq.
Qed.

Lemma C7_delete_witness :
  (buckets_only (db afterS) ∧ record_of (db afterS) "t" = None ∧
   is_Some (record_of (db afterS) "s")) ∧
  DeleteScenario "t" afterS = (afterS, Err ErrNotFound) ∧
  ∃ st',
    DeleteScenario "s" afterS = (st', Ok tt) ∧
    record_of (db st') "s" = None ∧
    (∀ bkt', getScenariosBucket (db st') = Some bkt' → bkt' !! "s" = None) ∧
    (∀ id', id' ≠ "s" → record_of (db st') id' = record_of (db afterS) id') ∧
    heap st' = heap afterS ∧
    GetScenario "s" st' = (st', Err ErrNotFound).
Proof.
  assert (buckets_only (db afterS)) as Honly.
  { apply records_ok_buckets_only.
    apply (records_ok_write 10 (newScenario "s") (mkScenario "s" zeroDefinition 10 10)
             emptyState afterS); [left; by vm_compute | apply records_ok_empty]. }
  assert (record_of (db afterS) "t" = None) as Ht by by vm_compute.
  assert (is_Some (record_of (db afterS) "s")) as Hs
    by (vm_compute; eexists; reflexivity).
  split; [exact (conj Honly (conj Ht Hs))|]. split.
  - exact (proj1 (C7_delete "t" afterS Honly) Ht).
  - exact (proj2 (C7_delete "s" afterS Honly) Hs).
Defined.

(** ** Listing (C8) *)

Lemma listScenario_Err (bkt : Bucket) (k : string) (v : option string)
    (acc : list Scenario) (h h' : Heap) (e : error) :
  listScenario bkt k v acc h = (h', Err e) → e ≠ ErrNotFound.
Proof.
  unfold listScenario. destruct (Bucket_Bucket bkt k) as [cb|].
  - unfold bind.
    destruct (readScenario cb (newScenario k) h) as [h1 [sc|e1]] eqn:Hrd.
    + by intros [=].
    + apply readScenario_Err in Hrd as ->. by intros [= _ <-].
  - by intros [= _ <-].
Qed.

Lemma eachM_listScenario_Err (bkt : Bucket) (l0 : list (string * node)) :
  ∀ acc h h' e,
    eachM l0 (listScenario bkt) acc h = (h', Err e) → e ≠ ErrNotFound.
Proof.
  induction l0 as [|[k n] l0 IH]; simpl; intros acc h h' e Hrun; [done|].
  unfold bind in Hrun.
  destruct (listScenario bkt k (value_of n) acc h) as [h1 [acc1|e1]] eqn:Hstep.
  - by eapply IH.
  - injection Hrun as _ <-. by eapply listScenario_Err.
Qed.

Lemma eachM_listScenario_Ok (bkt : Bucket) (l0 : list (string * node)) :
  ∀ acc h,
    (∀ k n, (k, n) ∈ l0 →
            bkt !! k = Some n ∧
            ∃ h0 sc cb, n = Sub (record_bucket h0 sc cb) ∧ ID sc = k) →
    ∃ h' l, eachM l0 (listScenario bkt) acc h = (h', Ok l) ∧
            ID <$> l = ((ID <$> acc) ++ l0.*1)%list.
Proof.
  induction l0 as [|[k n] l0 IH]; simpl; intros acc h Hl0.
  - exists h, acc. by rewrite app_nil_r.
  - destruct (Hl0 k n) as (Hk & h0 & sc & cb & -> & Hid); [left|].
    unfold bind at 1, listScenario at 1, Bucket_Bucket. rewrite Hk.
    destruct (read_written h0 h sc (newScenario k) cb)
      as (h1 & sc' & Hrd & _ & Hid' & _).
    unfold bind at 1. rewrite Hrd. unfold ret at 1.
    destruct (IH (acc ++ [sc'])%list h1) as (h' & l & Hrun & Hids).
    { intros k' n' Hin. apply Hl0. by right. }
    exists h', l. split; [done|].
    rewrite Hids, fmap_app, <- app_assoc. simpl. by rewrite Hid', Hid.
Qed.

(** On a store the layer built, listing succeeds and returns one record
    per key of the top-level bucket, in the order of the keys. *)
Lemma ListScenarios_ids (st : State) :
  records_ok (db st) →
  ∃ st' l, ListScenarios st = (st', Ok l) ∧ db st' = db st ∧
           ID <$> l
           = (Bucket_entries (default ∅ (getScenariosBucket (db st)))).*1.
Proof.
  intros Hok. unfold ListScenarios, View.
  destruct (getScenariosBucket (db st)) as [bkt|] eqn:Hbkt; simpl.
  - unfold Bucket_ForEachM.
    destruct (eachM_listScenario_Ok bkt (Bucket_entries bkt) [] (heap st))
      as (h' & l & -> & Hids).
    { intros k n Hin. rewrite entries_Permutation in Hin.
      apply elem_of_map_to_list in Hin. split; [done|]. by eapply Hok. }
    by eexists _, _.
  - rewrite entries_empty. by eexists _, _.
Qed.

Lemma entries_keys_insert (b : Bucket) (k : string) (n : node) :
  b !! k = None →
  (Bucket_entries (<[k := n]> b)).*1 ≡ₚ k :: (Bucket_entries b).*1.
Proof.
  intros Hk. rewrite !entries_Permutation.
  by rewrite map_to_list_insert.
Qed.

(** C8. ListScenarios never fails with NotFound; it returns the empty
    collection when the top-level bucket is missing or has no entry; and
    after three creates on a store without records it returns records for
    exactly the three ids, and no others. *)
Theorem C8_list :
  (∀ st st' r, ListScenarios st = (st', r) → r ≠ Err ErrNotFound) ∧
  (∀ st,
     getScenariosBucket (db st) = None ∨ getScenariosBucket (db st) = Some ∅ →
     ListScenarios st = (st, Ok [])) ∧
  (∀ nx ny nz x y z h stx scx sty scy stz scz,
     CreateScenario nx x (mkState ∅ h) = (stx, Ok scx) →
     CreateScenario ny y stx = (sty, Ok scy) →
     CreateScenario nz z sty = (stz, Ok scz) →
     ∃ st' l, ListScenarios stz = (st', Ok l) ∧
              ID <$> l ≡ₚ [ID x; ID y; ID z]).
Proof.
  split; [|split].
  - intros st st' r. unfold ListScenarios, View.
    destruct (getScenariosBucket (db st)) as [bkt|].
    + unfold Bucket_ForEachM.
      destruct (eachM _ _ _ _) as [h' [l|e]] eqn:Hrun; intros [= _ <-];
        [done|].
      apply eachM_listScenario_Err in Hrun. congruence.
    + by intros [= _ <-].
  - intros st [Hnone|Hempty]; unfold ListScenarios, View.
    + rewrite Hnone. unfold ret. by rewrite State_eta.
    + rewrite Hempty. unfold Bucket_ForEachM. rewrite entries_empty. simpl.
      unfold ret. by rewrite State_eta.
  - intros nx ny nz x y z h stx scx sty scy stz scz Hx Hy Hz.
    assert (records_ok (db stz)) as Hok.
    { eapply records_ok_write; [by left|].
      eapply records_ok_write; [by left|].
      eapply records_ok_write; [by left|]. apply records_ok_empty. }
    destruct (ListScenarios_ids stz Hok) as (st' & l & Hrun & _ & Hids).
    exists st', l. split; [done|]. rewrite Hids.
    apply CreateScenario_Ok in Hx as (_ & _ & _ & _ & Hdbx).
    apply CreateScenario_Ok in Hy as (_ & Hfy & _ & _ & Hdby).
    apply CreateScenario_Ok in Hz as (_ & Hfz & _ & _ & Hdbz).
    simpl in Hdbx. unfold getScenariosBucket at 1, Tx_Bucket in Hdbx.
    rewrite lookup_empty in Hdbx. simpl in Hdbx.
    rewrite Hdbx, getScenariosBucket_insert in Hfy, Hdby. simpl in Hfy, Hdby.
    rewrite Hdby, getScenariosBucket_insert in Hfz, Hdbz. simpl in Hfz, Hdbz.
    rewrite Hdbz, getScenariosBucket_insert. simpl.
    rewrite entries_keys_insert by done.
    rewrite entries_keys_insert by done.
    rewrite entries_keys_insert by apply lookup_empty.
    rewrite entries_empty. simpl.
    symmetry. apply (Permutation_rev [ID x; ID y; ID z]).
Qed.

Lemma C8_list_witness :
  ((getScenariosBucket (db emptyState) = None ∨
    getScenariosBucket (db emptyState) = Some ∅) ∧
   CreateScenario 1 (newScenario "x") (mkState ∅ ∅)
   = (afterX, Ok (mkScenario "x" zeroDefinition 1 1)) ∧
   CreateScenario 2 (newScenario "y") afterX
   = (afterXY, Ok (mkScenario "y" zeroDefinition 2 2)) ∧
   CreateScenario 3 (newScenario "z") afterXY
   = (afterXYZ, Ok (mkScenario "z" zeroDefinition 3 3))) ∧
  (Ok [] : result (list Scenario)) ≠ Err ErrNotFound ∧
  ListScenarios emptyState = (emptyState, Ok []) ∧
  ∃ st' l, ListScenarios afterXYZ = (st', Ok l) ∧
           ID <$> l ≡ₚ [ID (newScenario "x"); ID (newScenario "y");
                        ID (newScenario "z")].
Proof.
  assert (getScenariosBucket (db emptyState) = None ∨
          getScenariosBucket (db emptyState) = Some ∅) as H0
    by (left; by vm_compute).
  assert (CreateScenario 1 (newScenario "x") (mkState ∅ ∅)
          = (afterX, Ok (mkScenario "x" zeroDefinition 1 1))) as Hx
    by by vm_compute.
  assert (CreateScenario 2 (newScenario "y") afterX
          = (afterXY, Ok (mkScenario "y" zeroDefinition 2 2))) as Hy
    by by vm_compute.
  assert (CreateScenario 3 (newScenario "z") afterXY
          = (afterXYZ, Ok (mkScenario "z" zeroDefinition 3 3))) as Hz
    by by vm_compute.
  assert (ListScenarios emptyState = (emptyState, Ok [])) as Hl
    by exact (proj1 (proj2 C8_list) emptyState H0).
  split; [exact (conj H0 (conj Hx (conj Hy Hz)))|]. split; [|split].
  - exact (proj1 C8_list emptyState emptyState (Ok []) Hl).
  - exact Hl.
  - exact (proj2 (proj2 C8_list) 1 2 3 _ _ _ ∅ _ _ _ _ _ _ Hx Hy Hz).
Defined.

(** The same run evaluated: the records come back in the byte order of
    their ids. *)
Example list_example :
  match (ListScenarios afterXYZ).2 with
  | Ok l => ID <$> l = ["x"; "y"; "z"]
  | Err _ => False
  end.
Proof. by vm_compute. Qed.

(** ** The order of [range] does not matter to a run without error *)

Lemma drop_empty_Permutation (l l' : list (string * string)) (mm : GoMap) :
  l ≡ₚ l' → drop_empty l mm = drop_empty l' mm.
Proof.
  intros Hp. apply map_eq. intros j. rewrite !drop_empty_lookup.
  destruct (decide ((j, "") ∈ l)) as [Hin|Hnin].
  - rewrite decide_True; [done | by rewrite <- Hp].
  - rewrite decide_False; [done | by rewrite <- Hp].
Qed.

Lemma range_putEntry_Permutation (m : mapref) (l l' : list (string * string))
    (mb mb1 mb2 : Bucket) (h h1 h2 : Heap) :
  NoDup l.*1 → l ≡ₚ l' →
  range l (putEntry m) mb h = (h1, Ok mb1) →
  range l' (putEntry m) mb h = (h2, Ok mb2) →
  h1 = h2 ∧ mb1 = mb2.
Proof.
  intros Hnd Hp H1 H2.
  assert (NoDup l'.*1) as Hnd' by by rewrite <- Hp.
  split.
  - apply range_putEntry_heap in H1 as ->.
    apply range_putEntry_heap in H2 as ->.
    destruct m as [c|]; simpl; [|done].
    apply alter_ext. intros mm _. by apply drop_empty_Permutation.
  - apply map_eq. intros j.
    rewrite (range_putEntry_bucket _ _ _ _ _ _ Hnd H1 j).
    rewrite (range_putEntry_bucket _ _ _ _ _ _ Hnd' H2 j).
    by rewrite (list_to_map_proper l l' Hnd Hp).
Qed.

Lemma range_writeObject_Permutation (l l' : list (string * ObjectDefinition))
    (ob ob1 ob2 : Bucket) :
  NoDup l.*1 → l ≡ₚ l' →
  range_pure l writeObject ob = Ok ob1 →
  range_pure l' writeObject ob = Ok ob2 →
  ob1 = ob2.
Proof.
  intros Hnd Hp H1 H2.
  assert (NoDup l'.*1) as Hnd' by by rewrite <- Hp.
  apply map_eq. intros j.
  rewrite (range_writeObject _ _ _ Hnd H1 j).
  rewrite (range_writeObject _ _ _ Hnd' H2 j).
  by rewrite (list_to_map_proper l l' Hnd Hp).
Qed.

(** ** What a write can fail with *)

Lemma bind_Err {A B} (m : M A) (k : A -> M B) (h h' : Heap) (e : error) :
  bind m k h = (h', Err e) →
  m h = (h', Err e) ∨ ∃ h1 a, m h = (h1, Ok a) ∧ k a h1 = (h', Err e).
Proof.
  unfold bind. destruct (m h) as [h1 [a|e1]]; intros H; [right | left; by injection H as -> ->].
  exists h1, a. by split.
Qed.

Lemma fails_in_store_bind {A B} (m : M A) (k : A -> M B) :
  fails_in_store m → (∀ a, fails_in_store (k a)) → fails_in_store (bind m k).
Proof.
  intros Hm Hk h h' e [H|(h1 & a & _ & H)]%bind_Err.
  - by eapply Hm.
  - by eapply Hk.
Qed.

Lemma fails_in_store_lift {A} (r : result A) :
  fails_in_store_pure r → fails_in_store (lift r).
Proof. intros Hr h h' e [= _ ->]. by apply Hr. Qed.

Lemma fails_in_store_ret {A} (a : A) : fails_in_store (ret a).
Proof. by intros h h' e [=]. Qed.

Lemma fails_in_store_rbind {A B} (r : result A) (k : A -> result B) :
  fails_in_store_pure r → (∀ a, fails_in_store_pure (k a)) →
  fails_in_store_pure (rbind r k).
Proof.
  intros Hr Hk e. destruct r as [a|e1]; simpl.
  - exact (Hk a e).
  - intros [= ->]. by apply Hr.
Qed.

Lemma Put_fails_in_store (b : Bucket) (k v : string) :
  fails_in_store_pure (Bucket_Put b k v).
Proof.
  intros e. unfold Bucket_Put. repeat case_decide; try by intros [= <-].
  destruct (b !! k) as [[]|]; by intros [= <-].
Qed.

Lemma CreateBucket_fails_in_store (b : Bucket) (k : string) :
  fails_in_store_pure (Bucket_CreateBucket b k).
Proof.
  intros e. unfold Bucket_CreateBucket. case_decide; [by intros [= <-]|].
  destruct (b !! k) as [[]|]; by intros [= <-].
Qed.

Lemma delete_existing_fails_in_store (b : Bucket) (k : string) :
  fails_in_store_pure (delete_existing b k).
Proof. intros e. by rewrite delete_existing_Ok. Qed.

Lemma writeObject_fails_in_store (name : string) (o : ObjectDefinition) (ob : Bucket) :
  fails_in_store_pure (writeObject name o ob).
Proof.
  unfold writeObject. apply fails_in_store_rbind.
  { apply CreateBucket_fails_in_store. }
  intros [ob' nb]. apply fails_in_store_rbind; [apply Put_fails_in_store|].
  intros nb1. apply fails_in_store_rbind; [apply Put_fails_in_store|].
  by intros nb2 e.
Qed.

Lemma range_pure_fails_in_store {K V A} (l : list (K * V))
    (body : K -> V -> A -> result A) (a : A) :
  (∀ k v a, fails_in_store_pure (body k v a)) →
  fails_in_store_pure (range_pure l body a).
Proof.
  intros Hbody. revert a. induction l as [|[k v] l IH]; simpl; intros a.
  - by intros e.
  - apply fails_in_store_rbind; [apply Hbody | apply IH].
Qed.

Lemma range_fails_in_store {K V A} (l : list (K * V))
    (body : K -> V -> A -> M A) (a : A) :
  (∀ k v a, fails_in_store (body k v a)) →
  fails_in_store (range l body a).
Proof.
  intros Hbody. revert a. induction l as [|[k v] l IH]; simpl; intros a.
  - apply fails_in_store_ret.
  - apply fails_in_store_bind; [apply Hbody | apply IH].
Qed.

Lemma writeObjects_fails_in_store (bkt : Bucket) objects :
  fails_in_store_pure (writeObjects bkt objects).
Proof.
  unfold writeObjects. apply fails_in_store_rbind.
  { apply delete_existing_fails_in_store. }
  intros b0. case_decide; [by intros e|].
  apply fails_in_store_rbind; [apply CreateBucket_fails_in_store|].
  intros [b1 ob]. apply fails_in_store_rbind.
  { apply range_pure_fails_in_store. apply writeObject_fails_in_store. }
  by intros ob1 e.
Qed.

Lemma putEntry_fails_in_store (m : mapref) (k v : string) (mb : Bucket) :
  fails_in_store (putEntry m k v mb).
Proof.
  unfold putEntry. case_decide.
  - by intros h h' e [=].
  - apply fails_in_store_lift, Put_fails_in_store.
Qed.

Lemma writeMap_fails_in_store (bkt : Bucket) (name : string) (m : mapref) :
  fails_in_store (writeMap bkt name m).
Proof.
  unfold writeMap. apply fails_in_store_bind.
  { apply fails_in_store_lift, delete_existing_fails_in_store. }
  intros b0 h h' e. case_decide; [by intros [=]|].
  refine (fails_in_store_bind _ _ _ _ h h' e).
  { apply fails_in_store_lift, CreateBucket_fails_in_store. }
  intros [b1 mb]. apply fails_in_store_bind.
  { apply range_fails_in_store. apply putEntry_fails_in_store. }
  intros mb1. apply fails_in_store_ret.
Qed.

Lemma writeDefinition_fails_in_store (bkt : Bucket) (sdef : ScenarioDefinition) :
  fails_in_store (writeDefinition bkt sdef).
Proof.
  unfold writeDefinition. apply fails_in_store_bind.
  { apply fails_in_store_lift, delete_existing_fails_in_store. }
  intros b0. apply fails_in_store_bind.
  { apply fails_in_store_lift, CreateBucket_fails_in_store. }
  intros [b1 db]. apply fails_in_store_bind.
  { apply fails_in_store_lift, writeObjects_fails_in_store. }
  intros d1. apply fails_in_store_bind; [apply writeMap_fails_in_store|].
  intros d2. apply fails_in_store_bind; [apply writeMap_fails_in_store|].
  intros d3. apply fails_in_store_ret.
Qed.

Lemma writeScenario_fails_in_store (bkt : Bucket) (sc : Scenario) :
  fails_in_store (writeScenario bkt sc).
Proof.
  unfold writeScenario. apply fails_in_store_bind.
  { apply fails_in_store_lift. unfold WriteTimestamps.
    apply fails_in_store_rbind; [apply Put_fails_in_store|].
    intros b. apply Put_fails_in_store. }
  intros b1. apply fails_in_store_bind; [apply writeDefinition_fails_in_store|].
  intros b2. apply fails_in_store_lift, Put_fails_in_store.
Qed.

(** ** Creating under an empty id (X1) *)

(** X1. CreateScenario does not check the id itself: with an empty id the
    store refuses the record bucket, the call fails with the store's
    ErrBucketNameRequired (not with InvalidArgument, as UpdateScenario
    does) and the state is left as it was. *)
Theorem X1_create_empty_id (now : Time) (sc : Scenario) (st : State) :
  ID sc = "" →
  CreateScenario now sc st = (st, Err ErrBucketNameRequired).
Proof.
  intros Hid. unfold CreateScenario, Update, bind, lift.
  unfold createScenariosBucket, Tx_CreateBucketIfNotExists.
  rewrite decide_False by done.
  destruct (db st !! bucketKeyScenarios) as [bkt|];
    unfold Bucket_CreateBucket; rewrite decide_True by done;
    by rewrite State_eta.
Qed.

Lemma X1_create_empty_id_witness :
  ID (newScenario "") = "" ∧
  CreateScenario 5 (newScenario "") afterS = (afterS, Err ErrBucketNameRequired).
Proof.
  split; [done|]. by apply (X1_create_empty_id 5 (newScenario "") afterS).
Defined.

(** ** The errors of create and update (X2, X3) *)

Lemma record_of_Some (tx : Tx) (id : string) (cb : Bucket) :
  record_of tx id = Some cb ↔
  ∃ bkt, tx !! bucketKeyScenarios = Some bkt ∧ bkt !! id = Some (Sub cb).
Proof.
  unfold record_of, getScenariosBucket, Tx_Bucket, Bucket_Bucket.
  destruct (tx !! bucketKeyScenarios) as [bkt|]; simpl.
  - split.
    + intros H. exists bkt. split; [done|].
      destruct (bkt !! id) as [[]|]; by simplify_eq.
    + by intros (b & [= <-] & ->).
  - split; [done|]. by intros (b & H & _).
Qed.

(** X2. When CreateScenario fails, the error is AlreadyExists exactly
    when the id is not empty and a record bucket is filed under it; it is
    never NotFound and never InvalidArgument, and the store is left as it
    was. *)
Theorem X2_create_errors
    (now : Time) (sc : Scenario) (st st' : State) (e : error) :
  CreateScenario now sc st = (st', Err e) →
  (e = ErrAlreadyExists ↔
   ID sc ≠ "" ∧ is_Some (record_of (db st) (ID sc))) ∧
  e ≠ ErrNotFound ∧ e ≠ ErrInvalidArgument ∧
  db st' = db st.
Proof.
  intros Hrun.
  assert (db st' = db st) as Hdb
    by (unfold CreateScenario in Hrun; by apply Update_Err in Hrun).
  unfold CreateScenario, Update in Hrun.
  destruct (bind _ _ _) as [h1 [[tx1 a]|e1]] eqn:Hbody in Hrun; [done|].
  injection Hrun as _ <-.
  unfold createScenariosBucket, Tx_CreateBucketIfNotExists in Hbody.
  rewrite decide_False in Hbody by done.
  apply bind_Err in Hbody as [Hl|(h0 & [tx0 bkt] & Hl & Hbody)].
  { unfold lift in Hl. by destruct (db st !! bucketKeyScenarios). }
  apply lift_Ok in Hl as [-> Hl].
  assert (∀ cb, record_of (db st) (ID sc) = Some cb ↔ bkt !! ID sc = Some (Sub cb))
    as Hrec.
  { intros cb. rewrite record_of_Some.
    destruct (db st !! bucketKeyScenarios) as [b0|]; injection Hl as <- <-.
    - split; [by intros (b & [= <-] & ?) | eauto].
    - rewrite lookup_empty. split; [by intros (b & ? & _) | done]. }
  apply bind_Err in Hbody as [Hc|(h0 & [bkt' cbkt] & Hc & Hbody)].
  - unfold lift in Hc. injection Hc as _ Hc.
    unfold Bucket_CreateBucket in Hc. case_decide as Hid.
    + injection Hc as <-.
      split; [split; [done | by intros [? _]]|]. by repeat split.
    + destruct (bkt !! ID sc) as [[v|cb]|] eqn:Hk; try done;
        injection Hc as <-.
      * split; [split; [done|]|by repeat split].
        intros [_ [cb Hcb]]. apply Hrec in Hcb. congruence.
      * split; [split; [intros _|done]|by repeat split].
        split; [done|]. exists cb. by apply Hrec.
  - apply lift_Ok in Hc as [-> Hc].
    destruct (Bucket_CreateBucket bkt (ID sc)) as [[b2 c2]|e2] eqn:Hcb;
      [|by destruct e2].
    apply CreateBucket_Ok in Hcb as (Hid & Hfresh & _ & _).
    apply bind_Err in Hbody as [Hw|(h2 & cb' & _ & Hret)]; [|done].
    apply writeScenario_fails_in_store in Hw.
    split; [split|].
    + by intros ->.
    + intros [_ [cb Hcb]]. apply Hrec in Hcb. congruence.
    + split; [by intros ->|]. split; [by intros ->|done].
Qed.

Lemma X2_create_errors_witness :
  CreateScenario 20 other afterSeeded = (afterSeeded, Err ErrAlreadyExists) ∧
  (ErrAlreadyExists = ErrAlreadyExists ↔
   ID other ≠ "" ∧ is_Some (record_of (db afterSeeded) (ID other))) ∧
  ErrAlreadyExists ≠ ErrNotFound ∧ ErrAlreadyExists ≠ ErrInvalidArgument ∧
  db afterSeeded = db afterSeeded.
Proof.
  assert (CreateScenario 20 other afterSeeded
          = (afterSeeded, Err ErrAlreadyExists)) as H by (vm_compute; reflexivity).
  split; [exact H|].
  exact (X2_create_errors 20 other afterSeeded afterSeeded ErrAlreadyExists H).
Defined.

(** X3. When UpdateScenario fails, the error is InvalidArgument exactly
    when the id is empty and NotFound exactly when the id is not empty
    and no record bucket is filed under it; it is never AlreadyExists,
    and the store is left as it was. *)
Theorem X3_update_errors
    (now : Time) (sc : Scenario) (st st' : State) (e : error) :
  UpdateScenario now sc st = (st', Err e) →
  (e = ErrInvalidArgument ↔ ID sc = "") ∧
  (e = ErrNotFound ↔ ID sc ≠ "" ∧ record_of (db st) (ID sc) = None) ∧
  e ≠ ErrAlreadyExists ∧
  db st' = db st.
Proof.
  intros Hrun. unfold UpdateScenario in Hrun. case_decide as Hid.
  { injection Hrun as <- <-.
    split; [done|]. split; [split; [done | by intros [? _]]|]. by split. }
  assert (db st' = db st) as Hdb by by apply Update_Err in Hrun.
  unfold Update in Hrun.
  destruct (bind _ _ _) as [h1 [[tx1 a]|e1]] eqn:Hbody in Hrun; [done|].
  injection Hrun as _ <-.
  unfold createScenariosBucket, Tx_CreateBucketIfNotExists in Hbody.
  rewrite decide_False in Hbody by done.
  apply bind_Err in Hbody as [Hl|(h0 & [tx0 bkt] & Hl & Hbody)].
  { unfold lift in Hl. by destruct (db st !! bucketKeyScenarios). }
  apply lift_Ok in Hl as [-> Hl].
  assert (record_of (db st) (ID sc) = Bucket_Bucket bkt (ID sc)) as Hrec.
  { unfold record_of, getScenariosBucket, Tx_Bucket.
    destruct (db st !! bucketKeyScenarios) as [b0|]; injection Hl as <- <-;
      simpl; [done|]. unfold Bucket_Bucket. by rewrite lookup_empty. }
  rewrite Hrec. destruct (Bucket_Bucket bkt (ID sc)) as [cb|] eqn:Hcb.
  - apply bind_Err in Hbody as [Hw|(h2 & cb' & _ & Hret)]; [|done].
    apply writeScenario_fails_in_store in Hw.
    split; [split; [by intros -> | done]|].
    split; [split; [by intros -> | by intros [_ ?]]|].
    split; [by intros -> | done].
  - injection Hbody as _ <-.
    split; [split; done|]. split; [done|]. by split.
Qed.

Lemma X3_update_errors_witness :
  UpdateScenario 20 (newScenario "t") afterS = (afterS, Err ErrNotFound) ∧
  (ErrNotFound = ErrInvalidArgument ↔ ID (newScenario "t") = "") ∧
  (ErrNotFound = ErrNotFound ↔
   ID (newScenario "t") ≠ "" ∧ record_of (db afterS) (ID (newScenario "t")) = None) ∧
  ErrNotFound ≠ ErrAlreadyExists ∧
  db afterS = db afterS.
Proof.
  assert (UpdateScenario 20 (newScenario "t") afterS
          = (afterS, Err ErrNotFound)) as H by (vm_compute; reflexivity).
  split; [exact H|].
  exact (X3_update_errors 20 (newScenario "t") afterS afterS ErrNotFound H).
Defined.

(** ** What a successful write accepted (X4) *)

Lemma Put_Ok_bounds (b b' : Bucket) (k v : string) :
  Bucket_Put b k v = Ok b' →
  k ≠ "" ∧ len k ≤ MaxKeySize ∧ len v ≤ MaxValueSize.
Proof.
  unfold Bucket_Put. repeat case_decide; try discriminate. intros _.
  split; [done | lia].
Qed.

Lemma range_putEntry_keys (m : mapref) (l : list (string * string)) :
  ∀ mb h h' mb',
    range l (putEntry m) mb h = (h', Ok mb') →
    ∀ k v, (k, v) ∈ l → v ≠ "" →
           k ≠ "" ∧ len k ≤ MaxKeySize ∧ len v ≤ MaxValueSize.
Proof.
  induction l as [|[k0 v0] l IH]; simpl; intros mb h h' mb' Hrun k v Hin Hv.
  - by apply elem_of_nil in Hin.
  - apply bind_Ok in Hrun as (h1 & mb1 & Hstep & Hrest).
    apply elem_of_cons in Hin as [[= -> ->]|Hin].
    + unfold putEntry in Hstep. rewrite decide_False in Hstep by done.
      apply lift_Ok in Hstep as [_ Hput]. by apply Put_Ok_bounds in Hput.
    + by eapply IH.
Qed.

Lemma writeMap_Ok_keys (bkt bkt' : Bucket) (name : string) (m : mapref)
    (h h' : Heap) :
  writeMap bkt name m h = (h', Ok bkt') →
  ∀ k v, deref h m !! k = Some v → v ≠ "" →
         k ≠ "" ∧ len k ≤ MaxKeySize ∧ len v ≤ MaxValueSize.
Proof.
  unfold writeMap. intros Hrun k v Hk Hv.
  apply bind_Ok in Hrun as (h0 & b0 & Hl & Hrun).
  apply lift_Ok in Hl as [-> _].
  case_decide as Hsz.
  - apply map_size_empty_inv in Hsz. rewrite Hsz in Hk.
    by rewrite lookup_empty in Hk.
  - apply bind_Ok in Hrun as (h1 & [b1 mb] & Hc & Hrun).
    apply lift_Ok in Hc as [-> _].
    apply bind_Ok in Hrun as (h2 & mb' & Hloop & _).
    eapply range_putEntry_keys; [exact Hloop | | done].
    by apply elem_of_map_to_list.
Qed.

Lemma range_writeObject_names (l : list (string * ObjectDefinition)) :
  ∀ ob ob',
    range_pure l writeObject ob = Ok ob' →
    ∀ name o, (name, o) ∈ l →
              name ≠ "" ∧ len (Type_ o) ≤ MaxValueSize ∧
              len (Reference o) ≤ MaxValueSize.
Proof.
  induction l as [|[k0 o0] l IH]; simpl; intros ob ob' Hrun name o Hin.
  - by apply elem_of_nil in Hin.
  - apply rbind_Ok in Hrun as (ob1 & Hstep & Hrest).
    apply elem_of_cons in Hin as [[= -> ->]|Hin]; [|by eapply IH].
    unfold writeObject in Hstep.
    apply rbind_Ok in Hstep as ([ob2 nb] & Hc & Hstep).
    apply rbind_Ok in Hstep as (nb1 & Hp1 & Hstep).
    apply rbind_Ok in Hstep as (nb2 & Hp2 & _).
    apply CreateBucket_Ok in Hc as (Hname & _).
    apply Put_Ok_bounds in Hp1 as (_ & _ & Ht).
    apply Put_Ok_bounds in Hp2 as (_ & _ & Hr). done.
Qed.

Lemma writeObjects_Ok_names (bkt bkt' : Bucket) objects :
  writeObjects bkt objects = Ok bkt' →
  ∀ name o, default ∅ objects !! name = Some o →
            name ≠ "" ∧ len (Type_ o) ≤ MaxValueSize ∧
            len (Reference o) ≤ MaxValueSize.
Proof.
  unfold writeObjects. intros Hrun name o Hname.
  apply rbind_Ok in Hrun as (b0 & _ & Hrun).
  case_decide as Hsz.
  - apply map_size_empty_inv in Hsz. rewrite Hsz in Hname.
    by rewrite lookup_empty in Hname.
  - apply rbind_Ok in Hrun as ([b1 ob] & _ & Hrun).
    apply rbind_Ok in Hrun as (ob' & Hloop & _).
    eapply range_writeObject_names; [exact Hloop|].
    by apply elem_of_map_to_list.
Qed.

(** The run of [writeScenario] inside a successful create or update. *)
Lemma write_Ok_inner (now : Time) (sc sc1 : Scenario) (st st1 : State) :
  CreateScenario now sc st = (st1, Ok sc1) ∨
  UpdateScenario now sc st = (st1, Ok sc1) →
  ∃ cb cb', writeScenario cb sc1 (heap st) = (heap st1, Ok cb').
Proof.
  intros [Hrun|Hrun].
  - unfold CreateScenario, Update in Hrun.
    destruct (bind _ _ _) as [h1 [[tx1 a]|e]] eqn:Hbody in Hrun; [|done].
    injection Hrun as <- <-. simpl.
    apply bind_Ok in Hbody as (h0 & [tx0 bkt] & Hl & Hbody).
    apply lift_Ok in Hl as [-> _].
    apply bind_Ok in Hbody as (h0 & [bkt' cbkt] & Hc & Hbody).
    apply lift_Ok in Hc as [-> _].
    apply bind_Ok in Hbody as (h2 & cb' & Hw & Hret).
    apply ret_Ok in Hret as [-> [= _ ->]]. eauto.
  - unfold UpdateScenario in Hrun. case_decide; [done|].
    unfold Update in Hrun.
    destruct (bind _ _ _) as [h1 [[tx1 a]|e]] eqn:Hbody in Hrun; [|done].
    injection Hrun as <- <-. simpl.
    apply bind_Ok in Hbody as (h0 & [tx0 bkt] & Hl & Hbody).
    apply lift_Ok in Hl as [-> _].
    destruct (Bucket_Bucket bkt (ID sc)) as [cb|]; [|done].
    apply bind_Ok in Hbody as (h2 & cb' & Hw & Hret).
    apply ret_Ok in Hret as [-> [= _ ->]]. eauto.
Qed.

Lemma deref_prune_valued (r r' : mapref) (h : Heap) (k v : string) :
  deref h r' !! k = Some v → v ≠ "" → deref (prune r h) r' !! k = Some v.
Proof.
  intros Hk Hv. destruct (deref_prune_either r r' h) as [-> | ->]; [done|].
  rewrite strip_lookup, Hk. by rewrite decide_False.
Qed.

(** X4. A create or update that succeeds has accepted its input, and the
    store accepts no empty key: the id and every object name are not
    empty, and every seed or benchmark entry that carries a value has a
    key that is not empty and is within the key size of the store, and a
    value within its value size.  So a definition with an object without
    a name, or with a valued entry without a key, always fails. *)
Theorem X4_accepted_input
    (now : Time) (sc sc1 : Scenario) (st st1 : State) :
  CreateScenario now sc st = (st1, Ok sc1) ∨
  UpdateScenario now sc st = (st1, Ok sc1) →
  ID sc ≠ "" ∧
  (∀ name o, default ∅ (Objects (Definition_ sc)) !! name = Some o →
             name ≠ "" ∧ len (Type_ o) ≤ MaxValueSize ∧
             len (Reference o) ≤ MaxValueSize) ∧
  (∀ k v, deref (heap st) (Seed (Definition_ sc)) !! k = Some v → v ≠ "" →
          k ≠ "" ∧ len k ≤ MaxKeySize ∧ len v ≤ MaxValueSize) ∧
  (∀ k v, deref (heap st) (Benchmark (Definition_ sc)) !! k = Some v → v ≠ "" →
          k ≠ "" ∧ len k ≤ MaxKeySize ∧ len v ≤ MaxValueSize).
Proof.
  intros Hw.
  assert (ID sc ≠ "") as Hid.
  { destruct Hw as [H|H].
    - by apply CreateScenario_Ok in H as (? & _).
    - by apply UpdateScenario_Ok in H as (? & ? & _ & _ & ? & _). }
  pose proof (write_Ok_returns _ _ _ _ _ Hw) as [Hdef _].
  destruct (write_Ok_inner _ _ _ _ _ Hw) as (cb & cb' & Hrun).
  rewrite <- Hdef. unfold writeScenario in Hrun.
  apply bind_Ok in Hrun as (h0 & b0 & Hl & Hrun).
  apply lift_Ok in Hl as [-> _].
  apply bind_Ok in Hrun as (h1 & b1 & Hd & _).
  unfold writeDefinition in Hd.
  apply bind_Ok in Hd as (h2 & b2 & Hl & Hd). apply lift_Ok in Hl as [-> _].
  apply bind_Ok in Hd as (h2 & [b3 db] & Hl & Hd). apply lift_Ok in Hl as [-> _].
  apply bind_Ok in Hd as (h2 & d1 & Hl & Hd). apply lift_Ok in Hl as [-> Hobj].
  apply bind_Ok in Hd as (h2 & d2 & Hseed & Hd).
  apply bind_Ok in Hd as (h3 & d3 & Hbench & _).
  split; [done|]. split; [by eapply writeObjects_Ok_names|].
  split; [by eapply writeMap_Ok_keys|].
  intros k v Hk Hv.
  assert (h2 = prune (Seed (Definition_ sc1)) (heap st)) as ->.
  { unfold writeMap in Hseed. rewrite delete_existing_Ok in Hseed.
    apply bind_Ok in Hseed as (h4 & b4 & Hl & Hseed).
    apply lift_Ok in Hl as [-> _]. case_decide as Hsz.
    - injection Hseed as <- _. by rewrite prune_size_0.
    - apply bind_Ok in Hseed as (h5 & [b5 mb] & Hl & Hseed).
      apply lift_Ok in Hl as [-> _].
      apply bind_Ok in Hseed as (h6 & mb' & Hloop & Hret).
      apply ret_Ok in Hret as [-> _].
      apply range_putEntry_heap in Hloop as ->.
      destruct (Seed (Definition_ sc1)) as [c|]; simpl; [|done].
      apply alter_ext. intros x Hx. rewrite Hx. simpl. apply drop_empty_strip. }
  eapply writeMap_Ok_keys; [exact Hbench | | done].
  by apply deref_prune_valued.
Qed.

Lemma X4_accepted_input_witness :
  (CreateScenario 10 seeded (mkState ∅ someMaps)
   = (afterSeeded, Ok (mkScenario "s1" (Definition_ seeded) 10 10)) ∨
   UpdateScenario 10 seeded (mkState ∅ someMaps)
   = (afterSeeded, Ok (mkScenario "s1" (Definition_ seeded) 10 10))) ∧
  ID seeded ≠ "" ∧
  (∀ name o, default ∅ (Objects (Definition_ seeded)) !! name = Some o →
             name ≠ "" ∧ len (Type_ o) ≤ MaxValueSize ∧
             len (Reference o) ≤ MaxValueSize) ∧
  (∀ k v, deref someMaps (Seed (Definition_ seeded)) !! k = Some v → v ≠ "" →
          k ≠ "" ∧ len k ≤ MaxKeySize ∧ len v ≤ MaxValueSize) ∧
  (∀ k v, deref someMaps (Benchmark (Definition_ seeded)) !! k = Some v → v ≠ "" →
          k ≠ "" ∧ len k ≤ MaxKeySize ∧ len v ≤ MaxValueSize).
Proof.
  assert (CreateScenario 10 seeded (mkState ∅ someMaps)
          = (afterSeeded, Ok (mkScenario "s1" (Definition_ seeded) 10 10)))
    as H by (vm_compute; reflexivity).
  split; [by left|].
  exact (X4_accepted_input 10 seeded _ (mkState ∅ someMaps) afterSeeded
           (or_introl H)).
Defined.

(** ** The codec, one collection at a time (X5, X6) *)

Lemma decode_objects_written (objects : gmap string ObjectDefinition) :
  omap decode_node ((fun o => Sub (object_bucket o)) <$> objects)
  = stored_object <$> objects.
Proof.
  apply map_eq. intros j. rewrite lookup_omap, !lookup_fmap.
  destruct (objects !! j); simpl; [|done]. by rewrite decode_object_bucket.
Qed.

(** X5. What [readObjects] reads from a bucket [writeObjects] wrote: a
    nil map when the map written was nil or had no entry (no sub-bucket
    is made for it), and otherwise a map with the same object names, each
    object with the Type and Reference it was written with and nothing
    else.  The other keys of the bucket are left as they were. *)
Theorem X5_objects_round_trip
    (bkt bkt' : Bucket) (objects : option (gmap string ObjectDefinition)) :
  Bucket_Get bkt bucketKeyObjects = None →
  writeObjects bkt objects = Ok bkt' →
  readObjects bkt'
  = Ok (if decide (size (default ∅ objects) = 0%nat) then None
        else Some (stored_object <$> default ∅ objects)) ∧
  (∀ j, j ≠ bucketKeyObjects → bkt' !! j = bkt !! j).
Proof.
  intros Hget ->%writeObjects_Ok; [|done]. split.
  - rewrite readObjects_spec. f_equal. unfold decode_objects, with_objects.
    case_decide as Hsz.
    + unfold Bucket_Bucket. by rewrite lookup_delete_eq.
    + unfold Bucket_Bucket. rewrite lookup_insert_eq.
      by rewrite decode_objects_written.
  - intros j Hj. rewrite with_objects_lookup_ne by done.
    by rewrite lookup_delete_ne.
Qed.

Lemma X5_objects_round_trip_witness :
  (Bucket_Get ∅ bucketKeyObjects = None ∧
   writeObjects ∅ (Objects (Definition_ withAB))
   = Ok {[bucketKeyObjects :=
            Sub (<["b" := Sub (object_bucket objectB)]>
                   {["a" := Sub (object_bucket objectA)]})]}) ∧
  readObjects {[bucketKeyObjects :=
                  Sub (<["b" := Sub (object_bucket objectB)]>
                         {["a" := Sub (object_bucket objectA)]})]}
  = Ok (if decide (size (default ∅ (Objects (Definition_ withAB))) = 0%nat)
        then None
        else Some (stored_object <$> default ∅ (Objects (Definition_ withAB)))) ∧
  (∀ j, j ≠ bucketKeyObjects →
        ({[bucketKeyObjects :=
             Sub (<["b" := Sub (object_bucket objectB)]>
                    {["a" := Sub (object_bucket objectA)]})]} : Bucket) !! j
        = (∅ : Bucket) !! j).
Proof.
  assert (Bucket_Get ∅ bucketKeyObjects = None) as H1 by done.
  assert (writeObjects ∅ (Objects (Definition_ withAB))
          = Ok {[bucketKeyObjects :=
                   Sub (<["b" := Sub (object_bucket objectB)]>
                          {["a" := Sub (object_bucket objectA)]})]}) as H2
    by (vm_compute; reflexivity).
  split; [exact (conj H1 H2)|].
  exact (X5_objects_round_trip ∅ _ (Objects (Definition_ withAB)) H1 H2).
Defined.

(** X6. What [readMap] reads after [writeMap] wrote a map under the same
    name: nil when the map had no entry at all; otherwise a new map, in a
    cell that was not in use before (never the map that was written),
    holding the entries that carry a value, so an empty map when no entry
    carried one. *)
Theorem X6_map_round_trip
    (bkt bkt' : Bucket) (name : string) (m : mapref) (h h1 : Heap) :
  Bucket_Get bkt name = None →
  writeMap bkt name m h = (h1, Ok bkt') →
  ∃ h2 r,
    readMap bkt' name h1 = (h2, Ok r) ∧
    deref h2 r = strip (deref h m) ∧
    (size (deref h m) = 0%nat → r = None ∧ h2 = h1) ∧
    (size (deref h m) ≠ 0%nat →
     ∃ l, r = Some l ∧ h1 !! l = None ∧ h2 = <[l := strip (deref h m)]> h1).
Proof.
  intros Hget [-> ->]%writeMap_Ok; [|done].
  unfold readMap.
  rewrite Bucket_Bucket_with_map by apply lookup_delete_eq.
  case_decide as Hsz.
  - exists (prune m h), None. split; [done|]. simpl.
    split; [by rewrite size_0_strip|]. by split.
  - unfold bind, lift. rewrite ForEach_readMap, decode_map_bucket.
    destruct (alloc_spec (strip (deref h m)) (prune m h)) as (l & -> & Hl).
    eexists _, _. split; [done|]. simpl. rewrite lookup_insert_eq. simpl.
    split; [done|]. split; [done|]. intros _. by exists l.
Qed.

Lemma X6_map_round_trip_witness :
  (Bucket_Get ∅ bucketKeySeed = None ∧
   writeMap ∅ bucketKeySeed (Some 1%positive) someMaps
   = (prune (Some 1%positive) someMaps,
      Ok {[bucketKeySeed := Sub {["neighbors" := Leaf "get image"]}]})) ∧
  ∃ h2 r,
    readMap {[bucketKeySeed := Sub {["neighbors" := Leaf "get image"]}]}
      bucketKeySeed (prune (Some 1%positive) someMaps) = (h2, Ok r) ∧
    deref h2 r = strip (deref someMaps (Some 1%positive)) ∧
    (size (deref someMaps (Some 1%positive)) = 0%nat →
     r = None ∧ h2 = prune (Some 1%positive) someMaps) ∧
    (size (deref someMaps (Some 1%positive)) ≠ 0%nat →
     ∃ l, r = Some l ∧ prune (Some 1%positive) someMaps !! l = None ∧
          h2 = <[l := strip (deref someMaps (Some 1%positive))]>
                 (prune (Some 1%positive) someMaps)).
Proof.
  assert (Bucket_Get ∅ bucketKeySeed = None) as H1 by done.
  assert (writeMap ∅ bucketKeySeed (Some 1%positive) someMaps
          = (prune (Some 1%positive) someMaps,
             Ok {[bucketKeySeed := Sub {["neighbors" := Leaf "get image"]}]}))
    as H2 by (vm_compute; reflexivity).
  split; [exact (conj H1 H2)|].
  exact (X6_map_round_trip ∅ _ bucketKeySeed (Some 1%positive) someMaps _ H1 H2).
Defined.

(** ** Create, then get (X7) *)

(** X7. A create that succeeds returns the record it was given with both
    instants set to the clock reading, whatever instants the caller put
    there, and GetScenario of the id then succeeds, leaves the store as
    it is and returns that id, those two instants, every object under its
    name with its Type and Reference, and the seed and benchmark entries
    that carry a value. *)
Theorem X7_create_then_get
    (now : Time) (sc sc1 : Scenario) (st st1 : State) :
  CreateScenario now sc st = (st1, Ok sc1) →
  sc1 = mkScenario (ID sc) (Definition_ sc) now now ∧
  ∃ st2 g,
    GetScenario (ID sc) st1 = (st2, Ok g) ∧
    db st2 = db st1 ∧
    ID g = ID sc ∧ CreatedAt g = now ∧ UpdatedAt g = now ∧
    default ∅ (Objects (Definition_ g))
    = stored_object <$> default ∅ (Objects (Definition_ sc)) ∧
    deref (heap st2) (Seed (Definition_ g))
    = strip (deref (heap st) (Seed (Definition_ sc))) ∧
    deref (heap st2) (Benchmark (Definition_ g))
    = strip (deref (heap st) (Benchmark (Definition_ sc))).
Proof.
  intros Hc. split.
  { by apply CreateScenario_Ok in Hc as (_ & _ & -> & _). }
  destruct (Create_then_Get _ _ _ _ _ Hc)
    as (st2 & g & Hget & Hdb & _ & Hid & Hca & Hua & Hcont).
  exists st2, g. unfold contents, stored_contents in Hcont.
  injection Hcont as Ho Hs Hb. by repeat split.
Qed.

Lemma X7_create_then_get_witness :
  CreateScenario 10 seeded (mkState ∅ someMaps)
  = (afterSeeded, Ok (mkScenario "s1" (Definition_ seeded) 10 10)) ∧
  mkScenario "s1" (Definition_ seeded) 10 10
  = mkScenario (ID seeded) (Definition_ seeded) 10 10 ∧
  ∃ st2 g,
    GetScenario (ID seeded) afterSeeded = (st2, Ok g) ∧
    db st2 = db afterSeeded ∧
    ID g = ID seeded ∧ CreatedAt g = 10 ∧ UpdatedAt g = 10 ∧
    default ∅ (Objects (Definition_ g))
    = stored_object <$> default ∅ (Objects (Definition_ seeded)) ∧
    deref (heap st2) (Seed (Definition_ g))
    = strip (deref (heap (mkState ∅ someMaps)) (Seed (Definition_ seeded))) ∧
    deref (heap st2) (Benchmark (Definition_ g))
    = strip (deref (heap (mkState ∅ someMaps)) (Benchmark (Definition_ seeded))).
Proof.
  assert (CreateScenario 10 seeded (mkState ∅ someMaps)
          = (afterSeeded, Ok (mkScenario "s1" (Definition_ seeded) 10 10)))
    as H by (vm_compute; reflexivity).
  split; [exact H|].
  exact (X7_create_then_get 10 seeded _ (mkState ∅ someMaps) afterSeeded H).
Defined.

(** ** Reading one record and listing all (X8, X9) *)

Lemma GetScenario_absent (id : string) (st : State) :
  record_of (db st) id = None → GetScenario id st = (st, Err ErrNotFound).
Proof.
  unfold record_of, GetScenario, View. intros Hnone.
  destruct (getScenariosBucket (db st)) as [bkt|]; simpl in *.
  - rewrite Hnone. unfold fail. by rewrite State_eta.
  - unfold fail. by rewrite State_eta.
Qed.

(** X8. GetScenario fails with NotFound exactly when no record bucket is
    filed under the id, and then leaves the state as it was; on a store
    whose records were all written by this layer it succeeds for every
    record there is, leaves the store as it is and returns the record
    under the id it was asked for. *)
Theorem X8_get_outcomes (id : string) (st : State) :
  ((GetScenario id st).2 = Err ErrNotFound ↔ record_of (db st) id = None) ∧
  (record_of (db st) id = None → GetScenario id st = (st, Err ErrNotFound)) ∧
  (records_ok (db st) → is_Some (record_of (db st) id) →
   ∃ st' g, GetScenario id st = (st', Ok g) ∧ ID g = id ∧ db st' = db st).
Proof.
  split; [split|split].
  - intros Herr. destruct (record_of (db st) id) as [cb|] eqn:Hrec; [|done].
    unfold record_of in Hrec. unfold GetScenario, View in Herr.
    destruct (getScenariosBucket (db st)) as [bkt|]; [|done]. simpl in Hrec.
    rewrite Hrec in Herr.
    destruct (readScenario cb (newScenario id) (heap st)) as [h' [g|e]] eqn:Hrd;
      [done|].
    apply readScenario_Err in Hrd. simpl in Herr. congruence.
  - intros Hnone. by rewrite GetScenario_absent.
  - apply GetScenario_absent.
  - intros Hok [cb Hcb]. unfold record_of in Hcb.
    destruct (getScenariosBucket (db st)) as [bkt|] eqn:Hbkt; [|done].
    simpl in Hcb. unfold Bucket_Bucket in Hcb.
    destruct (bkt !! id) as [[v|cb0]|] eqn:Hk; try done.
    destruct (Hok bkt id _ Hbkt Hk) as (h0 & sc & cb1 & Hn & Hid).
    rewrite Hn in Hk.
    destruct (GetScenario_written id st bkt cb1 h0 sc Hbkt Hk)
      as (st' & g & Hget & Hdb & _ & Hgid & _).
    exists st', g. split; [done|]. split; [congruence | done].
Qed.

Lemma X8_get_outcomes_witness :
  (record_of (db afterS) "t" = None ∧
   records_ok (db afterS) ∧ is_Some (record_of (db afterS) "s")) ∧
  GetScenario "t" afterS = (afterS, Err ErrNotFound) ∧
  ∃ st' g, GetScenario "s" afterS = (st', Ok g) ∧ ID g = "s" ∧
           db st' = db afterS.
Proof.
  assert (record_of (db afterS) "t" = None) as H1
    by (vm_compute; reflexivity).
  assert (records_ok (db afterS)) as H2
    by exact (records_ok_after_calls [CallCreate 10 (newScenario "s")] ∅).
  assert (is_Some (record_of (db afterS) "s")) as H3
    by (vm_compute; eexists; reflexivity).
  split; [exact (conj H1 (conj H2 H3))|]. split.
  - exact (proj1 (proj2 (X8_get_outcomes "t" afterS)) H1).
  - exact (proj2 (proj2 (X8_get_outcomes "s" afterS)) H2 H3).
Defined.

Lemma key_le_total : Total key_le.
Proof. intros x y. apply String.leb_total. Qed.

(** X9. On a store whose records were all written by this layer,
    ListScenarios succeeds and leaves the store as it is; it returns each
    record once, in the byte order of the ids, and the ids it returns are
    exactly those for which a record is filed, that is those GetScenario
    finds. *)
Theorem X9_list_agrees_with_get (st : State) :
  records_ok (db st) →
  ∃ st' l,
    ListScenarios st = (st', Ok l) ∧ db st' = db st ∧
    NoDup (ID <$> l) ∧
    Sorted (fun a b => String.leb a b = true) (ID <$> l) ∧
    (∀ id, id ∈ ID <$> l ↔ is_Some (record_of (db st) id)).
Proof.
  intros Hok.
  destruct (ListScenarios_ids st Hok) as (st' & l & Hrun & Hdb & Hids).
  exists st', l. split; [done|]. split; [done|]. rewrite Hids.
  split; [apply entries_NoDup|]. split.
  - apply (Sorted_fmap fst key_le); [done|].
    unfold Bucket_entries. apply Sorted_merge_sort, key_le_total.
  - intros id. unfold record_of.
    destruct (getScenariosBucket (db st)) as [bkt|] eqn:Hbkt; simpl.
    + rewrite entries_Permutation. rewrite list_elem_of_fmap. split.
      * intros ([k n] & -> & Hin). apply elem_of_map_to_list in Hin. simpl.
        destruct (Hok bkt k n Hbkt Hin) as (h0 & sc & cb & -> & _).
        unfold Bucket_Bucket. rewrite Hin. by eexists.
      * intros [cb Hcb]. unfold Bucket_Bucket in Hcb.
        destruct (bkt !! id) as [[v|cb0]|] eqn:Hk; try done.
        exists (id, Sub cb0). split; [done|]. by apply elem_of_map_to_list.
    + rewrite entries_empty. split; [by intros ?%elem_of_nil | by intros [? ?]].
Qed.

Lemma X9_list_agrees_with_get_witness :
  records_ok (db afterXYZ) ∧
  ∃ st' l,
    ListScenarios afterXYZ = (st', Ok l) ∧ db st' = db afterXYZ ∧
    NoDup (ID <$> l) ∧
    Sorted (fun a b => String.leb a b = true) (ID <$> l) ∧
    (∀ id, id ∈ ID <$> l ↔ is_Some (record_of (db afterXYZ) id)).
Proof.
  assert (records_ok (db afterXYZ)) as H
    by exact (records_ok_after_calls
                [CallCreate 1 (newScenario "x"); CallCreate 2 (newScenario "y");
                 CallCreate 3 (newScenario "z")] ∅).
  split; [exact H|]. exact (X9_list_agrees_with_get afterXYZ H).
Defined.

(** ** What a write leaves alone (X10, X11) *)

(** X10. A create, update or delete that succeeds changes the record
    filed under its own id and nothing else in the store: every other
    record bucket and every other top-level bucket is as it was. *)
Theorem X10_other_records_untouched
    (now : Time) (sc sc1 : Scenario) (st st1 : State) :
  CreateScenario now sc st = (st1, Ok sc1) ∨
  UpdateScenario now sc st = (st1, Ok sc1) ∨
  DeleteScenario (ID sc) st = (st1, Ok tt) →
  (∀ id', id' ≠ ID sc → record_of (db st1) id' = record_of (db st) id') ∧
  (∀ name, name ≠ bucketKeyScenarios → db st1 !! name = db st !! name).
Proof.
  intros Hrun.
  assert (CreateScenario now sc st = (st1, Ok sc1) ∨
          UpdateScenario now sc st = (st1, Ok sc1) ∨
          ∃ bkt, getScenariosBucket (db st) = Some bkt ∧
                 db st1 = <[bucketKeyScenarios := delete (ID sc) bkt]> (db st))
    as [Hw|[Hw|(bkt & Hbkt & ->)]].
  { destruct Hrun as [H|[H|H]]; [by left | by right; left|].
    right; right. unfold DeleteScenario, Update in H.
    destruct (getScenariosBucket (db st)) as [bkt|] eqn:Hbkt; [|done].
    exists bkt. split; [done|]. unfold lift, Bucket_DeleteBucket in H.
    destruct (bkt !! ID sc) as [[]|]; try done. by injection H as <-. }
  - destruct (write_Ok_db now sc sc1 st st1 (or_introl Hw)) as (cb & ->).
    split; [intros; by apply record_of_other|].
    intros name Hne. by rewrite lookup_insert_ne.
  - destruct (write_Ok_db now sc sc1 st st1 (or_intror Hw)) as (cb & ->).
    split; [intros; by apply record_of_other|].
    intros name Hne. by rewrite lookup_insert_ne.
  - split; [|intros name Hne; by rewrite lookup_insert_ne].
    intros id' Hne. unfold record_of.
    rewrite getScenariosBucket_insert, Hbkt. simpl.
    unfold Bucket_Bucket. by rewrite lookup_delete_ne.
Qed.

Lemma X10_other_records_untouched_witness :
  (CreateScenario 2 (newScenario "y") afterX
   = (afterXY, Ok (mkScenario "y" zeroDefinition 2 2)) ∨
   UpdateScenario 2 (newScenario "y") afterX
   = (afterXY, Ok (mkScenario "y" zeroDefinition 2 2)) ∨
   DeleteScenario (ID (newScenario "y")) afterX = (afterXY, Ok tt)) ∧
  (∀ id', id' ≠ ID (newScenario "y") →
          record_of (db afterXY) id' = record_of (db afterX) id') ∧
  (∀ name, name ≠ bucketKeyScenarios → db afterXY !! name = db afterX !! name).
Proof.
  assert (CreateScenario 2 (newScenario "y") afterX
          = (afterXY, Ok (mkScenario "y" zeroDefinition 2 2))) as H
    by (vm_compute; reflexivity).
  split; [by left|].
  exact (X10_other_records_untouched 2 (newScenario "y") _ afterX afterXY
           (or_introl H)).
Defined.

(** X11. An update writes into the record bucket that is there: the keys
    of that bucket other than the id, the two instants and the definition
    are kept as they were, while the definition sub-bucket is made anew
    from the definition written, so nothing that was under it is kept. *)
Theorem X11_update_in_place
    (now : Time) (sc sc1 : Scenario) (st st1 : State) :
  UpdateScenario now sc st = (st1, Ok sc1) →
  ∃ cb cb',
    record_of (db st) (ID sc) = Some cb ∧
    record_of (db st1) (ID sc) = Some cb' ∧
    (∀ key, key ≠ bucketKeyID → key ≠ bucketKeyCreatedAt →
            key ≠ bucketKeyUpdatedAt → key ≠ bucketKeyDefinition →
            cb' !! key = cb !! key) ∧
    Bucket_Get cb' bucketKeyID = Some (ID sc) ∧
    Bucket_Bucket cb' bucketKeyDefinition
    = Some (definition_bucket (heap st) (Definition_ sc)).
Proof.
  intros (bkt & cb & Hbkt & Hcb & Hid & -> & _ & ->)%UpdateScenario_Ok.
  eexists cb, _. split; [unfold record_of; by rewrite Hbkt|].
  split; [apply record_of_written|]. unfold record_bucket. simpl.
  split; [|split].
  - intros key H1 H2 H3 H4. by rewrite !lookup_insert_ne.
  - unfold Bucket_Get. by rewrite lookup_insert_eq.
  - unfold Bucket_Bucket. by rewrite lookup_insert_ne, lookup_insert_eq.
Qed.

Lemma X11_update_in_place_witness :
  UpdateScenario 2 withA afterAB
  = ((UpdateScenario 2 withA afterAB).1,
     Ok (mkScenario "s2" (Definition_ withA) 0 2)) ∧
  ∃ cb cb',
    record_of (db afterAB) (ID withA) = Some cb ∧
    record_of (db (UpdateScenario 2 withA afterAB).1) (ID withA) = Some cb' ∧
    (∀ key, key ≠ bucketKeyID → key ≠ bucketKeyCreatedAt →
            key ≠ bucketKeyUpdatedAt → key ≠ bucketKeyDefinition →
            cb' !! key = cb !! key) ∧
    Bucket_Get cb' bucketKeyID = Some (ID withA) ∧
    Bucket_Bucket cb' bucketKeyDefinition
    = Some (definition_bucket (heap afterAB) (Definition_ withA)).
Proof.
  assert (UpdateScenario 2 withA afterAB
          = ((UpdateScenario 2 withA afterAB).1,
             Ok (mkScenario "s2" (Definition_ withA) 0 2))) as H
    by (vm_compute; reflexivity).
  split; [exact H|].
  exact (X11_update_in_place 2 withA _ afterAB _ H).
Defined.

(** ** Deleting (X12) *)

(** X12. A delete that fails leaves the whole state as it was, and fails
    with NotFound unless a value (not a bucket) sits under the id; a
    delete that succeeds does not touch the caller's maps, and a second
    delete of the same id fails with NotFound and changes nothing. *)
Theorem X12_delete_outcomes (id : string) (st st1 : State) (r : result unit) :
  DeleteScenario id st = (st1, r) →
  match r with
  | Err e =>
      st1 = st ∧
      (e = ErrNotFound ∨
       e = ErrIncompatibleValue ∧
       ∃ bkt v, getScenariosBucket (db st) = Some bkt ∧
                bkt !! id = Some (Leaf v))
  | Ok _ =>
      heap st1 = heap st ∧
      is_Some (record_of (db st) id) ∧
      DeleteScenario id st1 = (st1, Err ErrNotFound)
  end.
Proof.
  unfold DeleteScenario at 1, Update. intros Hrun.
  destruct (getScenariosBucket (db st)) as [bkt|] eqn:Hbkt.
  - unfold lift, Bucket_DeleteBucket in Hrun.
    destruct (bkt !! id) as [[v|cb]|] eqn:Hk; injection Hrun as <- <-.
    + rewrite State_eta. split; [done|]. right. split; [done|]. eauto.
    + split; [done|]. split.
      { exists cb. unfold record_of. rewrite Hbkt. simpl.
        unfold Bucket_Bucket. by rewrite Hk. }
      unfold DeleteScenario, Update. simpl. unfold Tx_store.
      rewrite getScenariosBucket_insert. unfold lift, Bucket_DeleteBucket.
      by rewrite lookup_delete_eq.
    + rewrite State_eta. split; [done|]. by left.
  - injection Hrun as <- <-. rewrite State_eta. split; [done|]. by left.
Qed.

Lemma X12_delete_outcomes_witness :
  DeleteScenario "s" afterS = ((DeleteScenario "s" afterS).1, Ok tt) ∧
  heap (DeleteScenario "s" afterS).1 = heap afterS ∧
  is_Some (record_of (db afterS) "s") ∧
  DeleteScenario "s" (DeleteScenario "s" afterS).1
  = ((DeleteScenario "s" afterS).1, Err ErrNotFound).
Proof.
  assert (DeleteScenario "s" afterS = ((DeleteScenario "s" afterS).1, Ok tt))
    as H by (vm_compute; reflexivity).
  split; [exact H|].
  exact (X12_delete_outcomes "s" afterS _ (Ok tt) H).
Defined.

(** ** The caller's maps, whatever the outcome (X13) *)

Lemma only_pruned_refl (rs : list mapref) (h : Heap) : only_pruned rs h h.
Proof. intros r k. by left. Qed.

Lemma only_pruned_trans (rs : list mapref) (h1 h2 h3 : Heap) :
  only_pruned rs h1 h2 → only_pruned rs h2 h3 → only_pruned rs h1 h3.
Proof.
  intros H12 H23 r k.
  destruct (H23 r k) as [E23|(Hr & Hs2 & Hn3)],
           (H12 r k) as [E12|(Hr' & Hs1 & Hn2)].
  - left. congruence.
  - right. split; [done|]. split; [done|]. congruence.
  - right. split; [done|]. split; [congruence | done].
  - congruence.
Qed.

Lemma only_pruned_weaken (rs rs' : list mapref) (h h' : Heap) :
  rs ⊆ rs' → only_pruned rs h h' → only_pruned rs' h h'.
Proof.
  intros Hsub H r k. destruct (H r k) as [E|(Hr & Hs & Hn)]; [by left|].
  right. split; [by apply Hsub | done].
Qed.

Lemma prunes_only_weaken {A} (rs rs' : list mapref) (m : M A) :
  rs ⊆ rs' → prunes_only rs m → prunes_only rs' m.
Proof. intros Hsub Hm h h' r Hrun. eapply only_pruned_weaken; eauto. Qed.

Lemma prunes_only_lift {A} (rs : list mapref) (r : result A) :
  prunes_only rs (lift r).
Proof. intros h h' r' [= <- _]. apply only_pruned_refl. Qed.

Lemma prunes_only_ret {A} (rs : list mapref) (a : A) : prunes_only rs (ret a).
Proof. intros h h' r' [= <- _]. apply only_pruned_refl. Qed.

Lemma prunes_only_bind {A B} (rs : list mapref) (m : M A) (k : A -> M B) :
  prunes_only rs m → (∀ a, prunes_only rs (k a)) → prunes_only rs (bind m k).
Proof.
  intros Hm Hk h h' r. unfold bind.
  destruct (m h) as [h1 [a|e]] eqn:Hmh.
  - intros Hka. eapply only_pruned_trans; [by eapply Hm | by eapply Hk].
  - intros [= <- _]. by eapply Hm.
Qed.

Lemma deref_map_delete (m r : mapref) (k : string) (h : Heap) :
  deref (map_delete m k h) r
  = if decide (r = m) then delete k (deref h r) else deref h r.
Proof.
  destruct (decide (r = m)) as [->|Hne].
  - destruct m as [l|]; simpl; [|by rewrite delete_empty].
    rewrite lookup_alter_eq. destruct (h !! l); simpl; [done|].
    by rewrite delete_empty.
  - destruct m as [l|], r as [l'|]; simpl; try done.
    rewrite lookup_alter_ne; [done | congruence].
Qed.

Lemma map_delete_only_pruned (m : mapref) (k : string) (h : Heap) :
  deref h m !! k = Some "" ∨ deref h m !! k = None →
  only_pruned [m] h (map_delete m k h).
Proof.
  intros Hk r j. rewrite deref_map_delete. case_decide as Hr; [subst r|by left].
  destruct (decide (j = k)) as [->|Hjk].
  - rewrite lookup_delete_eq. destruct Hk as [Hk|Hk].
    + right. split; [by left | done].
    + left. by rewrite Hk.
  - left. by rewrite lookup_delete_ne.
Qed.

Lemma range_putEntry_only_pruned (m : mapref) (l : list (string * string)) :
  ∀ mb h h' r,
    (∀ k, (k, "") ∈ l → deref h m !! k = Some "" ∨ deref h m !! k = None) →
    range l (putEntry m) mb h = (h', r) →
    only_pruned [m] h h'.
Proof.
  induction l as [|[k v] l IH]; simpl; intros mb h h' r Hl Hrun.
  - injection Hrun as <- _. apply only_pruned_refl.
  - unfold bind, putEntry in Hrun. case_decide as Hv.
    + subst v. eapply only_pruned_trans.
      * apply (map_delete_only_pruned m k h). apply Hl. by left.
      * eapply IH; [|exact Hrun]. intros k' Hin.
        rewrite deref_map_delete, decide_True by done.
        destruct (decide (k' = k)) as [->|Hne].
        -- right. apply lookup_delete_eq.
        -- rewrite lookup_delete_ne by done. apply Hl. by right.
    + unfold lift in Hrun. destruct (Bucket_Put mb k v) as [mb1|e].
      * eapply IH; [|exact Hrun]. intros k' Hin. apply Hl. by right.
      * injection Hrun as <- _. apply only_pruned_refl.
Qed.

Lemma writeMap_prunes_only (bkt : Bucket) (name : string) (m : mapref) :
  prunes_only [m] (writeMap bkt name m).
Proof.
  unfold writeMap. intros h h' r. rewrite delete_existing_Ok.
  unfold bind at 1, lift at 1. case_decide as Hsz.
  { intros [= <- _]. apply only_pruned_refl. }
  unfold bind at 1, lift at 1.
  destruct (Bucket_CreateBucket _ _) as [[b1 mb]|e].
  - unfold bind.
    destruct (range _ _ _ _) as [h1 [mb1|e]] eqn:Hloop.
    + intros [= <- _]. eapply range_putEntry_only_pruned; [|exact Hloop].
      intros k Hin. left. by apply elem_of_map_to_list.
    + intros [= <- _]. eapply range_putEntry_only_pruned; [|exact Hloop].
      intros k Hin. left. by apply elem_of_map_to_list.
  - intros [= <- _]. apply only_pruned_refl.
Qed.

Lemma writeDefinition_prunes_only (bkt : Bucket) (sdef : ScenarioDefinition) :
  prunes_only [Seed sdef; Benchmark sdef] (writeDefinition bkt sdef).
Proof.
  unfold writeDefinition.
  apply prunes_only_bind; [apply prunes_only_lift|]. intros b0.
  apply prunes_only_bind; [apply prunes_only_lift|]. intros [b1 db].
  apply prunes_only_bind; [apply prunes_only_lift|]. intros d1.
  apply prunes_only_bind.
  { eapply prunes_only_weaken; [|apply writeMap_prunes_only].
    intros r ->%list_elem_of_singleton. by left. }
  intros d2. apply prunes_only_bind.
  { eapply prunes_only_weaken; [|apply writeMap_prunes_only].
    intros r ->%list_elem_of_singleton. right. by left. }
  intros d3. apply prunes_only_ret.
Qed.

Lemma writeScenario_prunes_only (bkt : Bucket) (sc : Scenario) :
  prunes_only [Seed (Definition_ sc); Benchmark (Definition_ sc)]
    (writeScenario bkt sc).
Proof.
  unfold writeScenario.
  apply prunes_only_bind; [apply prunes_only_lift|]. intros b1.
  apply prunes_only_bind; [apply writeDefinition_prunes_only|]. intros b2.
  apply prunes_only_lift.
Qed.

Lemma Update_heap {A} (fn : Tx -> M (Tx * A)) (st st' : State) (r : result A) :
  Update fn st = (st', r) → ∃ r', fn (db st) (heap st) = (heap st', r').
Proof.
  unfold Update. destruct (fn (db st) (heap st)) as [h [[tx a]|e]];
    intros [= <- _]; by eexists.
Qed.

Lemma write_prunes_only (now : Time) (sc : Scenario) (st st' : State)
    (r : result Scenario) :
  CreateScenario now sc st = (st', r) ∨ UpdateScenario now sc st = (st', r) →
  only_pruned [Seed (Definition_ sc); Benchmark (Definition_ sc)]
    (heap st) (heap st').
Proof.
  intros [Hrun|Hrun].
  - unfold CreateScenario in Hrun. apply Update_heap in Hrun as [r' Hrun].
    revert Hrun. generalize (heap st) (heap st') r'.
    change (prunes_only [Seed (Definition_ sc); Benchmark (Definition_ sc)]
      (bind (lift (createScenariosBucket (db st)))
         (fun r0 => let '(tx, bkt) := r0 in
            bind (lift (match Bucket_CreateBucket bkt (ID sc) with
                        | Ok r1 => Ok r1
                        | Err ErrBucketExists => Err ErrAlreadyExists
                        | Err e => Err e
                        end))
              (fun r2 => let '(bkt0, cbkt) := r2 in
                 bind (writeScenario cbkt
                         (mkScenario (ID sc) (Definition_ sc) now now))
                   (fun cbkt0 =>
                      ret (Tx_store tx bucketKeyScenarios
                             (Bucket_store bkt0 (ID sc) cbkt0),
                           mkScenario (ID sc) (Definition_ sc) now now)))))).
    apply prunes_only_bind; [apply prunes_only_lift|]. intros [tx bkt].
    apply prunes_only_bind; [apply prunes_only_lift|]. intros [b0 cb].
    apply prunes_only_bind.
    { exact (writeScenario_prunes_only cb
               (mkScenario (ID sc) (Definition_ sc) now now)). }
    intros cb'. apply prunes_only_ret.
  - unfold UpdateScenario in Hrun. case_decide.
    { injection Hrun as <- _. apply only_pruned_refl. }
    apply Update_heap in Hrun as [r' Hrun].
    revert Hrun. generalize (heap st) (heap st') r'.
    change (prunes_only [Seed (Definition_ sc); Benchmark (Definition_ sc)]
      (bind (lift (createScenariosBucket (db st)))
         (fun r0 => let '(tx, bkt) := r0 in
            match Bucket_Bucket bkt (ID sc) with
            | None => fail ErrNotFound
            | Some cbkt =>
                bind (writeScenario cbkt
                        (mkScenario (ID sc) (Definition_ sc) (CreatedAt sc) now))
                  (fun cbkt0 =>
                     ret (Tx_store tx bucketKeyScenarios
                            (Bucket_store bkt (ID sc) cbkt0),
                          mkScenario (ID sc) (Definition_ sc) (CreatedAt sc) now))
            end))).
    apply prunes_only_bind; [apply prunes_only_lift|]. intros [tx bkt].
    destruct (Bucket_Bucket bkt (ID sc)) as [cb|].
    + apply prunes_only_bind.
      { exact (writeScenario_prunes_only cb
                 (mkScenario (ID sc) (Definition_ sc) (CreatedAt sc) now)). }
      intros cb'. apply prunes_only_ret.
    + intros h h' r0 [= <- _]. apply only_pruned_refl.
Qed.

(** X13. Whatever a create or an update returns, nil or an error, the
    caller's maps never gain or change an entry; the only entries that go
    are entries without a value of the seed or the benchmark map of the
    record passed in.  The rollback of a failed call does not restore
    them. *)
Theorem X13_maps_only_pruned
    (now : Time) (sc : Scenario) (st st' : State) (r : result Scenario) :
  CreateScenario now sc st = (st', r) ∨ UpdateScenario now sc st = (st', r) →
  ∀ (m : mapref) (k : string),
    deref (heap st') m !! k = deref (heap st) m !! k ∨
    ((m = Seed (Definition_ sc) ∨ m = Benchmark (Definition_ sc)) ∧
     deref (heap st) m !! k = Some "" ∧ deref (heap st') m !! k = None).
Proof.
  intros Hrun m k.
  destruct (write_prunes_only now sc st st' r Hrun m k)
    as [E|(Hin & Hs & Hn)]; [by left|].
  right. split; [|done].
  apply elem_of_cons in Hin as [->|Hin]; [by left|].
  apply list_elem_of_singleton in Hin as ->. by right.
Qed.

(** The create of [badBenchmark] fails on its benchmark map after its seed
    map was written: the store is as before, the seed map has lost its
    entry without a value. *)
Lemma X13_maps_only_pruned_witness :
  (CreateScenario 1 badBenchmark (mkState ∅ badMaps)
   = ((CreateScenario 1 badBenchmark (mkState ∅ badMaps)).1, Err ErrKeyRequired) ∨
   UpdateScenario 1 badBenchmark (mkState ∅ badMaps)
   = ((CreateScenario 1 badBenchmark (mkState ∅ badMaps)).1, Err ErrKeyRequired)) ∧
  db (CreateScenario 1 badBenchmark (mkState ∅ badMaps)).1 = ∅ ∧
  deref badMaps (Some 1%positive) !! "warm" = Some "" ∧
  deref (heap (CreateScenario 1 badBenchmark (mkState ∅ badMaps)).1)
    (Some 1%positive) !! "warm" = None ∧
  ∀ (m : mapref) (k : string),
    deref (heap (CreateScenario 1 badBenchmark (mkState ∅ badMaps)).1) m !! k
    = deref (heap (mkState ∅ badMaps)) m !! k ∨
    ((m = Seed (Definition_ badBenchmark) ∨ m = Benchmark (Definition_ badBenchmark)) ∧
     deref (heap (mkState ∅ badMaps)) m !! k = Some "" ∧
     deref (heap (CreateScenario 1 badBenchmark (mkState ∅ badMaps)).1) m !! k
     = None).
Proof.
  assert (CreateScenario 1 badBenchmark (mkState ∅ badMaps)
          = ((CreateScenario 1 badBenchmark (mkState ∅ badMaps)).1,
             Err ErrKeyRequired)) as H by (vm_compute; reflexivity).
  split; [by left|]. split; [vm_compute; reflexivity|].
  split; [vm_compute; reflexivity|]. split; [vm_compute; reflexivity|].
  exact (X13_maps_only_pruned 1 badBenchmark (mkState ∅ badMaps) _ _
           (or_introl H)).
Defined.

(** ** Reads (X14) *)

Lemma readMap_fresh (bkt : Bucket) (name : string) (h h' : Heap) (r : mapref) :
  readMap bkt name h = (h', Ok r) →
  h ⊆ h' ∧ ∀ l, r = Some l → h !! l = None ∧ is_Some (h' !! l).
Proof.
  unfold readMap. destruct (Bucket_Bucket bkt name) as [mbkt|].
  - unfold bind, lift. rewrite ForEach_readMap.
    destruct (alloc_spec (node_string <$> mbkt) h) as (l & -> & Hl).
    intros [= <- <-]. split; [by apply insert_subseteq|].
    intros l' [= <-]. split; [done|]. rewrite lookup_insert_eq. by eexists.
  - intros [= <- <-]. split; [done|]. by intros l [=].
Qed.

Lemma readDefinition_fresh (bkt : Bucket) (h h' : Heap) (sdef : ScenarioDefinition) :
  readDefinition bkt h = (h', Ok sdef) →
  h ⊆ h' ∧
  (∀ l, Seed sdef = Some l ∨ Benchmark sdef = Some l → h !! l = None) ∧
  (∀ l, Seed sdef = Some l → Benchmark sdef ≠ Some l).
Proof.
  unfold readDefinition.
  destruct (Bucket_Bucket bkt bucketKeyDefinition) as [dbkt|].
  - intros Hrun. apply bind_Ok in Hrun as (h0 & objects & Hl & Hrun).
    apply lift_Ok in Hl as [-> _].
    apply bind_Ok in Hrun as (h1 & seed & Hs & Hrun).
    apply bind_Ok in Hrun as (h2 & benchmark & Hb & Hret).
    apply ret_Ok in Hret as [-> ->]. simpl.
    apply readMap_fresh in Hs as [Hsub1 Hs].
    apply readMap_fresh in Hb as [Hsub2 Hb].
    split; [by etrans|]. split.
    + intros l [Hl|Hl].
      * by apply Hs.
      * apply Hb in Hl as [Hl _]. by eapply lookup_weaken_None.
    + intros l Hl1 Hl2. apply Hs in Hl1 as [_ [x Hx]].
      apply Hb in Hl2 as [Hn _]. congruence.
  - intros [= <- <-]. split; [done|]. simpl. split; [by intros l [|]|done].
Qed.

Lemma readScenario_heap (bkt : Bucket) (sc : Scenario) (h h' : Heap)
    (r : result Scenario) :
  readScenario bkt sc h = (h', r) →
  h ⊆ h' ∧
  match r with
  | Ok g =>
      (∀ l, Seed (Definition_ g) = Some l ∨ Benchmark (Definition_ g) = Some l →
            h !! l = None) ∧
      (∀ l, Seed (Definition_ g) = Some l → Benchmark (Definition_ g) ≠ Some l)
  | Err _ => True
  end.
Proof.
  unfold readScenario, bind at 1, lift at 1.
  destruct (ReadTimestamps bkt (CreatedAt sc) (UpdatedAt sc)) as [ts|e].
  - unfold bind.
    destruct (readDefinition bkt h) as [h1 [sdef|e]] eqn:Hrd.
    + apply readDefinition_fresh in Hrd as (Hsub & Hfresh & Hne).
      unfold lift. rewrite ForEach_readID. by intros [= <- <-].
    + destruct (readDefinition_spec bkt h) as (? & ? & Hok & _). congruence.
  - by intros [= <- <-].
Qed.

Lemma eachM_listScenario_heap (bkt : Bucket) (l0 : list (string * node)) :
  ∀ acc h h' r, eachM l0 (listScenario bkt) acc h = (h', r) → h ⊆ h'.
Proof.
  induction l0 as [|[k n] l0 IH]; simpl; intros acc h h' r Hrun.
  - by injection Hrun as <- _.
  - unfold bind at 1, listScenario at 1 in Hrun.
    destruct (Bucket_Bucket bkt k) as [cb|].
    + unfold bind at 1 in Hrun.
      destruct (readScenario cb (newScenario k) h) as [h1 [sc|e]] eqn:Hrd.
      * apply readScenario_heap in Hrd as [Hsub _]. unfold ret at 1 in Hrun.
        etrans; [exact Hsub|]. by eapply IH.
      * apply readScenario_heap in Hrd as [Hsub _]. by injection Hrun as <- _.
    + by injection Hrun as <- _.
Qed.

(** X14. GetScenario and ListScenarios change neither the store nor any
    map that exists: whatever they return, the store is the same and
    every cell of the heap holds what it held.  The seed and benchmark
    maps of a record GetScenario returns are nil or in cells that were
    not in use before the call, and are never one and the same map. *)
Theorem X14_reads_change_nothing (id : string) (st : State) :
  (∀ st' r,
     GetScenario id st = (st', r) →
     db st' = db st ∧ heap st ⊆ heap st' ∧
     match r with
     | Ok g =>
         (∀ l, Seed (Definition_ g) = Some l ∨ Benchmark (Definition_ g) = Some l →
               heap st !! l = None) ∧
         (∀ l, Seed (Definition_ g) = Some l → Benchmark (Definition_ g) ≠ Some l)
     | Err _ => True
     end) ∧
  (∀ st' r,
     ListScenarios st = (st', r) → db st' = db st ∧ heap st ⊆ heap st').
Proof.
  split.
  - intros st' r. unfold GetScenario, View.
    destruct (getScenariosBucket (db st)) as [bkt|].
    + destruct (Bucket_Bucket bkt id) as [cb|].
      * destruct (readScenario cb (newScenario id) (heap st)) as [h' r'] eqn:Hrd.
        intros [= <- <-]. simpl. split; [done|].
        by apply readScenario_heap in Hrd.
      * by intros [= <- <-].
    + by intros [= <- <-].
  - intros st' r. unfold ListScenarios, View.
    destruct (getScenariosBucket (db st)) as [bkt|].
    + unfold Bucket_ForEachM.
      destruct (eachM _ _ _ _) as [h' r'] eqn:Hrun. intros [= <- <-]. simpl.
      split; [done|]. by eapply eachM_listScenario_heap.
    + by intros [= <- <-].
Qed.

Lemma X14_reads_change_nothing_witness :
  (GetScenario "s1" afterSeeded
   = ((GetScenario "s1" afterSeeded).1,
      Ok (mkScenario "s1" (mkDefinition None (Some 3%positive) (Some 4%positive))
            10 10)) ∧
   ListScenarios afterSeeded
   = ((ListScenarios afterSeeded).1, (ListScenarios afterSeeded).2)) ∧
  (db (GetScenario "s1" afterSeeded).1 = db afterSeeded ∧
   heap afterSeeded ⊆ heap (GetScenario "s1" afterSeeded).1 ∧
   (∀ l, Some 3%positive = Some l ∨ Some 4%positive = Some l →
         heap afterSeeded !! l = None) ∧
   (∀ l, Some 3%positive = Some l → Some 4%positive ≠ Some l)) ∧
  db (ListScenarios afterSeeded).1 = db afterSeeded ∧
  heap afterSeeded ⊆ heap (ListScenarios afterSeeded).1.
Proof.
  assert (GetScenario "s1" afterSeeded
          = ((GetScenario "s1" afterSeeded).1,
             Ok (mkScenario "s1"
                   (mkDefinition None (Some 3%positive) (Some 4%positive))
                   10 10))) as H1 by (vm_compute; reflexivity).
  assert (ListScenarios afterSeeded
          = ((ListScenarios afterSeeded).1, (ListScenarios afterSeeded).2))
    as H2 by apply surjective_pairing.
  split; [exact (conj H1 H2)|]. split.
  - exact (proj1 (X14_reads_change_nothing "s1" afterSeeded) _ _ H1).
  - exact (proj2 (X14_reads_change_nothing "s1" afterSeeded) _ _ H2).
Defined.

(** ** The layout of a created record (X15) *)

Lemma dom_definition_bucket (h : Heap) (sdef : ScenarioDefinition) :
  dom (definition_bucket h sdef)
  ⊆ ({[bucketKeyObjects; bucketKeySeed; bucketKeyBenchmark]} : gset string).
Proof.
  assert (∀ name (mm : GoMap) (b : Bucket),
            dom (with_map name mm b) ⊆ {[name]} ∪ dom b) as Hmap.
  { intros name mm b. unfold with_map. destruct (decide (size mm = 0%nat)).
    - apply union_subseteq_r.
    - rewrite dom_insert_L. intros x Hx. exact Hx. }
  assert (dom (with_objects (default ∅ (Objects sdef)) ∅)
          ⊆ ({[bucketKeyObjects]} : gset string)) as Hobj.
  { unfold with_objects.
    destruct (decide (size (default ∅ (Objects sdef)) = 0%nat)).
    - rewrite dom_empty_L. apply empty_subseteq.
    - rewrite dom_insert_L, dom_empty_L.
      apply union_least; [intros x Hx; exact Hx | apply empty_subseteq]. }
  unfold definition_bucket. intros k Hk.
  apply Hmap in Hk. apply elem_of_union in Hk as [Hk|Hk].
  { apply elem_of_singleton in Hk as ->.
    apply elem_of_union_r, elem_of_singleton. done. }
  apply Hmap in Hk. apply elem_of_union in Hk as [Hk|Hk].
  { apply elem_of_singleton in Hk as ->.
    apply elem_of_union_l, elem_of_union_r, elem_of_singleton. done. }
  apply Hobj in Hk. apply elem_of_singleton in Hk as ->.
  apply elem_of_union_l, elem_of_union_l, elem_of_singleton. done.
Qed.

(** X15. The record bucket a successful create leaves under the id holds
    four keys and no other: the id leaf, which holds the id, the two
    instant leaves, which both hold the clock reading, and the definition
    sub-bucket.  The definition sub-bucket holds at most the objects, seed
    and benchmark sub-buckets; the objects sub-bucket is there exactly
    when there is an object, with one sub-bucket per object name holding
    the type leaf and the reference leaf and nothing else. *)
Theorem X15_created_layout
    (now : Time) (sc sc1 : Scenario) (st st1 : State) :
  CreateScenario now sc st = (st1, Ok sc1) →
  ∃ cb dbkt,
    record_of (db st1) (ID sc) = Some cb ∧
    dom cb = {[bucketKeyID; bucketKeyCreatedAt; bucketKeyUpdatedAt;
               bucketKeyDefinition]} ∧
    Bucket_Get cb bucketKeyID = Some (ID sc) ∧
    Bucket_Get cb bucketKeyCreatedAt = Some (MarshalBinary now) ∧
    Bucket_Get cb bucketKeyUpdatedAt = Some (MarshalBinary now) ∧
    Bucket_Bucket cb bucketKeyDefinition = Some dbkt ∧
    dom dbkt ⊆ {[bucketKeyObjects; bucketKeySeed; bucketKeyBenchmark]} ∧
    Bucket_Bucket dbkt bucketKeyObjects
    = (if decide (size (default ∅ (Objects (Definition_ sc))) = 0%nat) then None
       else Some ((fun o =>
                     Sub (<[bucketKeyReference := Leaf (Reference o)]>
                            {[bucketKeyType := Leaf (Type_ o)]}))
                  <$> default ∅ (Objects (Definition_ sc)))).
Proof.
  intros (Hid & _ & -> & _ & ->)%CreateScenario_Ok.
  eexists _, _. split; [apply record_of_written|]. unfold record_bucket. simpl.
  split; [|split; [|split; [|split; [|split; [|split]]]]].
  - rewrite !dom_insert_L, dom_empty_L. set_solver.
  - unfold Bucket_Get. by rewrite lookup_insert_eq.
  - unfold Bucket_Get. rewrite !lookup_insert_ne by done.
    by rewrite lookup_insert_eq.
  - unfold Bucket_Get. rewrite !lookup_insert_ne by done.
    by rewrite lookup_insert_eq.
  - unfold Bucket_Bucket. rewrite lookup_insert_ne by done.
    by rewrite lookup_insert_eq.
  - apply dom_definition_bucket.
  - unfold definition_bucket, Bucket_Bucket.
    rewrite !with_map_lookup_ne by done. unfold with_objects.
    case_decide; [by rewrite lookup_empty | by rewrite lookup_insert_eq].
Qed.

Lemma X15_created_layout_witness :
  CreateScenario 1 withAB emptyState
  = (afterAB, Ok (mkScenario "s2" (Definition_ withAB) 1 1)) ∧
  ∃ cb dbkt,
    record_of (db afterAB) (ID withAB) = Some cb ∧
    dom cb = {[bucketKeyID; bucketKeyCreatedAt; bucketKeyUpdatedAt;
               bucketKeyDefinition]} ∧
    Bucket_Get cb bucketKeyID = Some (ID withAB) ∧
    Bucket_Get cb bucketKeyCreatedAt = Some (MarshalBinary 1) ∧
    Bucket_Get cb bucketKeyUpdatedAt = Some (MarshalBinary 1) ∧
    Bucket_Bucket cb bucketKeyDefinition = Some dbkt ∧
    dom dbkt ⊆ {[bucketKeyObjects; bucketKeySeed; bucketKeyBenchmark]} ∧
    Bucket_Bucket dbkt bucketKeyObjects
    = (if decide (size (default ∅ (Objects (Definition_ withAB))) = 0%nat)
       then None
       else Some ((fun o =>
                     Sub (<[bucketKeyReference := Leaf (Reference o)]>
                            {[bucketKeyType := Leaf (Type_ o)]}))
                  <$> default ∅ (Objects (Definition_ withAB)))).
Proof.
  assert (CreateScenario 1 withAB emptyState
          = (afterAB, Ok (mkScenario "s2" (Definition_ withAB) 1 1))) as H
    by (vm_compute; reflexivity).
  split; [exact H|].
  exact (X15_created_layout 1 withAB _ emptyState afterAB H).
Defined.
